(** * dart/collision/CollisionDetector.cpp: object managers and
      convenience collision queries

    A shallow embedding of [dart::collision::CollisionDetector] (the
    abstract base class), of its two nested collision-object managers
    and of their custom deleters.

    Pointers are modelled by identities: a [ShapeFrame] is the identity
    of the [const dynamics::ShapeFrame*] used as key, an [ObjId] is the
    identity of one allocation of a [CollisionObject] (allocation
    identities are never reused, unlike machine addresses).  A
    [std::shared_ptr<CollisionObject>] is an [option ObjId] ([None] is
    the empty pointer) together with one unit of [use_count] in the
    control block of the object; the [std::weak_ptr] stored in the map
    of the sharable manager is a plain [ObjId] that owns nothing. *)

From stdpp Require Import base option list relations gmap.
From Stdlib Require Import NArith.

(** ** Data *)

Abbreviation ShapeFrame := nat (only parsing).
Abbreviation ObjId := nat (only parsing).
Abbreviation FilterId := nat (only parsing).

(** [CollisionOption]: the four fields, in the order of the constructor
    call [CollisionOption(false, true, 1u, nullptr)] and of the three
    assertions of [collide].  [collisionFilter] is a
    [std::shared_ptr<CollisionFilter>], [None] being [nullptr]. *)
Record CollisionOption := mkCollisionOption {
  enableContact : bool;
  binaryCheck : bool;
  maxNumContacts : N;
  collisionFilter : option FilterId
}.

Definition set_collisionFilter (f : option FilterId) (o : CollisionOption)
  : CollisionOption :=
  mkCollisionOption (enableContact o) (binaryCheck o) (maxNumContacts o) f.

(** Modelled from the spec: the declaration of [CollisionResult] is in a
    header that is not part of the sources.  A result accumulates contact
    records, each naming the two participating objects; the contact
    geometry is left out. *)
Definition Contact := (ObjId * ObjId)%type.
Definition CollisionResult := list Contact.

(** Modelled from the spec: the declaration of [CollisionGroup] is in a
    header that is not part of the sources.  A group is an ordered
    collection of collision objects. *)
Definition CollisionGroup := list ObjId.

(** The two sharing disciplines, that is, which of the two nested
    [CollisionObjectDeleter] classes a control block holds. *)
Inductive Policy := Exclusive | Shared.

(** A live [CollisionObject] with the control block of its
    [shared_ptr]s: the shape frame it was created for, the number of
    owning references and the deleter given at construction. *)
Record ObjectCell := mkObjectCell {
  getShapeFrame : ShapeFrame;
  use_count : nat;
  deleter : Policy
}.

Definition set_use_count (n : nat) (c : ObjectCell) : ObjectCell :=
  mkObjectCell (getShapeFrame c) n (deleter c).

(** [CollisionObjectManager] and its two subclasses.  The unsharable
    manager has no data besides its deleter; the sharable one has
    [mCollisionObjectMap], from shape frames to weak pointers. *)
Inductive CollisionObjectManager :=
| Unsharable
| Sharable (mCollisionObjectMap : gmap ShapeFrame ObjId).

Definition newManager (p : Policy) : CollisionObjectManager :=
  match p with
  | Exclusive => Unsharable
  | Shared => Sharable ∅
  end.

Definition policy_of (m : CollisionObjectManager) : Policy :=
  match m with
  | Unsharable => Exclusive
  | Sharable _ => Shared
  end.

(** Calls that leave the detector object, in the order they are made. *)
Inductive Event :=
| EvCreate (sf : ShapeFrame) (o : ObjId)
| EvNotify (o : ObjId)
| EvErase (sf : ShapeFrame)
| EvDelete (o : ObjId)
| EvCollide (group : CollisionGroup) (option : CollisionOption)
            (result : CollisionResult)
| EvCollide2 (group1 group2 : CollisionGroup) (option : CollisionOption)
             (result : CollisionResult).

(** The detector: its three lazily initialised members, the store of
    live collision objects, the next fresh allocation identity, and the
    log of outgoing calls. *)
Record CollisionDetector := mkCollisionDetector {
  mCollisionObjectManager : option CollisionObjectManager;
  mDummyCollisionOption : option CollisionOption;
  mDummyCollisionResult : option CollisionResult;
  heap : gmap ObjId ObjectCell;
  next_object : ObjId;
  trace : list Event
}.

Definition set_manager (m : option CollisionObjectManager)
    (d : CollisionDetector) : CollisionDetector :=
  mkCollisionDetector m (mDummyCollisionOption d) (mDummyCollisionResult d)
    (heap d) (next_object d) (trace d).

Definition set_option (o : option CollisionOption)
    (d : CollisionDetector) : CollisionDetector :=
  mkCollisionDetector (mCollisionObjectManager d) o (mDummyCollisionResult d)
    (heap d) (next_object d) (trace d).

Definition set_result (r : option CollisionResult)
    (d : CollisionDetector) : CollisionDetector :=
  mkCollisionDetector (mCollisionObjectManager d) (mDummyCollisionOption d) r
    (heap d) (next_object d) (trace d).

Definition set_heap (h : gmap ObjId ObjectCell)
    (d : CollisionDetector) : CollisionDetector :=
  mkCollisionDetector (mCollisionObjectManager d) (mDummyCollisionOption d)
    (mDummyCollisionResult d) h (next_object d) (trace d).

Definition set_next (n : ObjId) (d : CollisionDetector) : CollisionDetector :=
  mkCollisionDetector (mCollisionObjectManager d) (mDummyCollisionOption d)
    (mDummyCollisionResult d) (heap d) n (trace d).

Definition log (e : Event) (d : CollisionDetector) : CollisionDetector :=
  mkCollisionDetector (mCollisionObjectManager d) (mDummyCollisionOption d)
    (mDummyCollisionResult d) (heap d) (next_object d) (trace d ++ [e]).

(** A detector as its constructor leaves it.  The base class leaves
    [mCollisionObjectManager] empty ([None]); a concrete detector may
    install a manager of either kind in its own constructor. *)
Definition newCollisionDetector (p : option Policy) : CollisionDetector :=
  mkCollisionDetector (newManager <$> p) None None ∅ 0 [].

(** ** Effects: state of the detector, and faults *)

Inductive Fault :=
| AssertionFailed
| InvalidPointer.

Inductive Outcome (A : Type) :=
| Ok (a : A) (d : CollisionDetector)
| Err (f : Fault).
Arguments Ok {A} a d.
Arguments Err {A} f.

Definition M (A : Type) : Type := CollisionDetector → Outcome A.

Global Instance M_ret : MRet M := λ A a d, Ok a d.

Global Instance M_bind : MBind M := λ A B k m d,
  match m d with
  | Ok a d' => k a d'
  | Err f => Err f
  end.

Definition get {A} (f : CollisionDetector → A) : M A := fun d => Ok (f d) d.
Definition modify (f : CollisionDetector → CollisionDetector) : M unit :=
  fun d => Ok tt (f d).
Definition fail {A} (f : Fault) : M A := fun _ => Err f.

(** [assert(b)] of a build with assertions enabled. *)
Definition assertion (b : bool) : M unit :=
  if b then mret tt else fail AssertionFailed.

Definition value_of {A} (o : Outcome A) : option A :=
  match o with Ok a _ => Some a | Err _ => None end.
Definition state_of {A} (o : Outcome A) : option CollisionDetector :=
  match o with Ok _ d => Some d | Err _ => None end.

(** ** The interface a concrete detector implements

    The core overloads [collide(group, option, result)] and
    [collide(group1, group2, option, result)] are pure virtual.  They
    take the option by reference to const and the result by reference:
    an implementation reads the groups, the option and the result, and
    gives the returned flag and the new contents of the result. *)
Class CollisionDetectorImpl := {
  collide_impl :
    CollisionGroup → CollisionOption → CollisionResult →
    bool * CollisionResult;
  collide2_impl :
    CollisionGroup → CollisionGroup → CollisionOption → CollisionResult →
    bool * CollisionResult
}.

(** ** Smart pointers over the object store *)

(** [weak_ptr::expired()]. *)
Definition expired (o : ObjId) (d : CollisionDetector) : bool :=
  match heap d !! o with
  | Some c => Nat.eqb (use_count c) 0
  | None => true
  end.

(** [weak_ptr::lock()]: a new owning reference, or the empty pointer
    when the object is gone. *)
Definition lock (o : ObjId) : M (option ObjId) := fun d =>
  match heap d !! o with
  | Some c =>
      if Nat.eqb (use_count c) 0 then Ok None d
      else Ok (Some o) (set_heap (<[o := set_use_count (S (use_count c)) c]> (heap d)) d)
  | None => Ok None d
  end.

(** [mCollisionDetector->createCollisionObject(shapeFrame)]: pure
    virtual; whatever the payload, it allocates a new object for the
    shape frame, held by a [unique_ptr]: there is no shared owner and no
    control block yet ([use_count] is 0, and [deleter] only means
    something once [make_shared] has set it). *)
Definition createCollisionObject (shapeFrame : ShapeFrame) : M ObjId :=
  fun d =>
  let o := next_object d in
  Ok o (log (EvCreate shapeFrame o)
         (set_next (S o)
           (set_heap (<[o := mkObjectCell shapeFrame 0 Exclusive]> (heap d))
              d))).

(** [std::shared_ptr<CollisionObject>(uniqueObject.release(), deleter)]:
    the control block, with the deleter of the calling manager and the
    first owning reference. *)
Definition make_shared (o : ObjId) (mCollisionObjectDeleter : Policy)
  : M (option ObjId) := fun d =>
  match heap d !! o with
  | Some c =>
      Ok (Some o)
         (set_heap
            (<[o := mkObjectCell (getShapeFrame c) 1 mCollisionObjectDeleter]>
               (heap d)) d)
  | None => Err InvalidPointer
  end.

(** [object->getShapeFrame()]. *)
Definition object_getShapeFrame (o : ObjId) : M ShapeFrame := fun d =>
  match heap d !! o with
  | Some c => Ok (getShapeFrame c) d
  | None => Err InvalidPointer
  end.

(** [delete object]. *)
Definition delete_object (o : ObjId) : M unit :=
  modify (fun d => log (EvDelete o) (set_heap (delete o (heap d)) d)).

(** [CollisionDetector::notifyCollisionObjectDestroying]: does nothing
    (only the call is logged). *)
Definition notifyCollisionObjectDestroying (o : ObjId) : M unit :=
  modify (log (EvNotify o)).

(** ** ManagerForUnsharableCollisionObjects *)
Module ManagerForUnsharableCollisionObjects.

Definition claimCollisionObject (shapeFrame : ShapeFrame)
  : M (option ObjId) :=
  uniqueObject ← createCollisionObject shapeFrame;
  sharedObject ← make_shared uniqueObject Exclusive;
  mret sharedObject.

(** [CollisionObjectDeleter::operator()]. *)
Definition CollisionObjectDeleter (object : ObjId) : M unit :=
  notifyCollisionObjectDestroying object;;
  delete_object object.

End ManagerForUnsharableCollisionObjects.

(** ** ManagerForSharableCollisionObjects *)
Module ManagerForSharableCollisionObjects.

(** [this->mCollisionObjectMap]; [this] is the manager of the
    detector. *)
Definition read_map : M (gmap ShapeFrame ObjId) := fun d =>
  match mCollisionObjectManager d with
  | Some (Sharable m) => Ok m d
  | _ => Err InvalidPointer
  end.

Definition write_map (m : gmap ShapeFrame ObjId) : M unit :=
  modify (set_manager (Some (Sharable m))).

(** [mCollisionObjectMap[shapeFrame] = sharedObject]: the map keeps a
    weak pointer. *)
Definition map_assign (shapeFrame : ShapeFrame) (sharedObject : option ObjId)
  : M unit :=
  m ← read_map;
  match sharedObject with
  | Some o => write_map (<[shapeFrame := o]> m)
  | None => fail InvalidPointer
  end.

(** [mCollisionObjectMap.erase(key)]. *)
Definition map_erase (key : ShapeFrame) : M unit :=
  m ← read_map;
  write_map (delete key m);;
  modify (log (EvErase key)).

Definition claimCollisionObject (shapeFrame : ShapeFrame)
  : M (option ObjId) :=
  m ← read_map;
  match m !! shapeFrame with
  | Some collObj =>
      alive ← get (fun d => negb (expired collObj d));
      assertion alive;;
      lock collObj
  | None =>
      uniqueObject ← createCollisionObject shapeFrame;
      sharedObject ← make_shared uniqueObject Shared;
      map_assign shapeFrame sharedObject;;
      mret sharedObject
  end.

(** [CollisionObjectDeleter::operator()]. *)
Definition CollisionObjectDeleter (object : ObjId) : M unit :=
  notifyCollisionObjectDestroying object;;
  key ← object_getShapeFrame object;
  map_erase key;;
  delete_object object.

(** [~ManagerForSharableCollisionObjects()]. *)
Definition destructor : M unit :=
  m ← read_map;
  assertion (bool_decide (m = ∅)).

End ManagerForSharableCollisionObjects.

(** The destructor of a [shared_ptr<CollisionObject>] (or its [reset]):
    one owning reference less; when the last one goes, the use count is
    0 (weak pointers are expired from here on) and the deleter of the
    control block runs.  Destroying an empty pointer does nothing. *)
Definition release (p : option ObjId) : M unit := fun d =>
  match p with
  | None => Ok tt d
  | Some o =>
      match heap d !! o with
      | Some c =>
          match use_count c with
          | 0 => Ok tt d
          | 1 =>
              let d0 := set_heap (<[o := set_use_count 0 c]> (heap d)) d in
              match deleter c with
              | Exclusive =>
                  ManagerForUnsharableCollisionObjects.CollisionObjectDeleter o d0
              | Shared =>
                  ManagerForSharableCollisionObjects.CollisionObjectDeleter o d0
              end
          | S n => Ok tt (set_heap (<[o := set_use_count n c]> (heap d)) d)
          end
      | None => Ok tt d
      end
  end.

(** ** CollisionDetector *)

(** [mCollisionObjectManager->claimCollisionObject(shapeFrame)]: the
    virtual call. *)
Definition manager_claimCollisionObject (m : CollisionObjectManager)
    (shapeFrame : ShapeFrame) : M (option ObjId) :=
  match m with
  | Unsharable =>
      ManagerForUnsharableCollisionObjects.claimCollisionObject shapeFrame
  | Sharable _ =>
      ManagerForSharableCollisionObjects.claimCollisionObject shapeFrame
  end.

Definition claimCollisionObject (shapeFrame : ShapeFrame)
  : M (option ObjId) :=
  mgr ← get mCollisionObjectManager;
  (if mgr is None then modify (set_manager (Some Unsharable))
   else mret tt);;
  mgr ← get mCollisionObjectManager;
  match mgr with
  | Some m => manager_claimCollisionObject m shapeFrame
  | None => fail InvalidPointer
  end.

Definition getDummyCollisionOption : M CollisionOption :=
  cur ← get mDummyCollisionOption;
  match cur with
  | Some o => mret o
  | None =>
      let o := mkCollisionOption false true 1 None in
      modify (set_option (Some o));;
      mret o
  end.

Definition getDummyCollisionResult : M CollisionResult :=
  cur ← get mDummyCollisionResult;
  match cur with
  | Some r => mret r
  | None =>
      modify (set_result (Some []));;
      mret []
  end.

(** A store through the reference returned by
    [getDummyCollisionOption]: it changes the member of the detector. *)
Definition store_dummy_option (o : CollisionOption) : M unit :=
  modify (set_option (Some o)).

Section Collide.
Context `{Impl : CollisionDetectorImpl}.

(** The core overloads, called on the result returned by
    [getDummyCollisionResult]: what the implementation writes to the
    result goes to the member of the detector. *)
Definition collide_result (group : CollisionGroup)
    (option : CollisionOption) (result : CollisionResult) : M bool :=
  modify (log (EvCollide group option result));;
  let '(b, result') := collide_impl group option result in
  modify (set_result (Some result'));;
  mret b.

Definition collide2_result (group1 group2 : CollisionGroup)
    (option : CollisionOption) (result : CollisionResult) : M bool :=
  modify (log (EvCollide2 group1 group2 option result));;
  let '(b, result') := collide2_impl group1 group2 option result in
  modify (set_result (Some result'));;
  mret b.

(** [collide(group, option)]. *)
Definition collide (group : CollisionGroup) (option : CollisionOption)
  : M bool :=
  if binaryCheck option then
    result ← getDummyCollisionResult;
    collide_result group option result
  else
    collisionOption ← getDummyCollisionOption;
    let collisionOption :=
      set_collisionFilter (collisionFilter option) collisionOption in
    store_dummy_option collisionOption;;
    assertion (bool_decide (false = enableContact collisionOption));;
    assertion (bool_decide (true = binaryCheck collisionOption));;
    assertion (bool_decide (1%N = maxNumContacts collisionOption));;
    result ← getDummyCollisionResult;
    collide_result group collisionOption result.

(** [collide(group1, group2, option)]. *)
Definition collide2 (group1 group2 : CollisionGroup)
    (option : CollisionOption) : M bool :=
  if binaryCheck option then
    result ← getDummyCollisionResult;
    collide2_result group1 group2 option result
  else
    collisionOption ← getDummyCollisionOption;
    let collisionOption :=
      set_collisionFilter (collisionFilter option) collisionOption in
    store_dummy_option collisionOption;;
    assertion (bool_decide (false = enableContact collisionOption));;
    assertion (bool_decide (true = binaryCheck collisionOption));;
    assertion (bool_decide (1%N = maxNumContacts collisionOption));;
    result ← getDummyCollisionResult;
    collide2_result group1 group2 collisionOption result.

End Collide.

(** ** A small concrete detector, to run the model on

    Every two distinct members of a group touch, unless the filter says
    otherwise; a filter is the identity of an object whose pairs are all
    rejected.  The query records at most [maxNumContacts] contacts and
    answers whether it recorded any. *)
Module PairwiseDetector.

Definition needCollision (f : option FilterId) (c : Contact) : bool :=
  match f with
  | None => true
  | Some x => negb (Nat.eqb (fst c) x) && negb (Nat.eqb (snd c) x)
  end.

Fixpoint self_pairs (g : CollisionGroup) : list Contact :=
  match g with
  | [] => []
  | a :: rest => map (pair a) rest ++ self_pairs rest
  end.

Definition cross_pairs (g1 g2 : CollisionGroup) : list Contact :=
  flat_map (fun a => map (pair a) g2) g1.

Definition report (candidates : list Contact) (option : CollisionOption)
    (result : CollisionResult) : bool * CollisionResult :=
  let found :=
    take (N.to_nat (maxNumContacts option))
         (List.filter (needCollision (collisionFilter option)) candidates) in
  (negb (Nat.eqb (length found) 0), result ++ found).

#[export] Instance impl : CollisionDetectorImpl := {|
  collide_impl g := report (self_pairs g);
  collide2_impl g1 g2 := report (cross_pairs g1 g2)
|}.

End PairwiseDetector.

(** ** What a client can do with a detector, and the states it reaches *)

Inductive Request :=
| Claim (shapeFrame : ShapeFrame)
| Release (object : ObjId)
| Collide (group : CollisionGroup) (option : CollisionOption)
| Collide2 (group1 group2 : CollisionGroup) (option : CollisionOption).

Section Client.
Context `{Impl : CollisionDetectorImpl}.

Definition handle (r : Request) : M unit :=
  match r with
  | Claim shapeFrame => claimCollisionObject shapeFrame;; mret tt
  | Release object => release (Some object)
  | Collide group option => collide group option;; mret tt
  | Collide2 group1 group2 option => collide2 group1 group2 option;; mret tt
  end.

Definition step (d d' : CollisionDetector) : Prop :=
  ∃ r, handle r d = Ok tt d'.

Definition reachable (d : CollisionDetector) : Prop :=
  ∃ p, rtc step (newCollisionDetector p) d.

(** Running a list of requests, stopping at the first fault. *)
Fixpoint run (rs : list Request) : M unit :=
  match rs with
  | [] => mret tt
  | r :: rs' => handle r;; run rs'
  end.

End Client.

(** ** Well-formed detectors *)

Definition binary_option (o : CollisionOption) : Prop :=
  enableContact o = false ∧ binaryCheck o = true ∧ maxNumContacts o = 1%N.

Record wf (d : CollisionDetector) : Prop := {
  wf_fresh : ∀ o c, heap d !! o = Some c → o < next_object d;
  wf_owned : ∀ o c, heap d !! o = Some c → 0 < use_count c;
  wf_deleter : ∀ o c, heap d !! o = Some c →
    policy_of <$> mCollisionObjectManager d = Some (deleter c);
  wf_map_live : ∀ m sf o,
    mCollisionObjectManager d = Some (Sharable m) → m !! sf = Some o →
    ∃ c, heap d !! o = Some c ∧ getShapeFrame c = sf;
  wf_live_map : ∀ m o c,
    mCollisionObjectManager d = Some (Sharable m) → heap d !! o = Some c →
    m !! getShapeFrame c = Some o;
  wf_dummy : ∀ o, mDummyCollisionOption d = Some o → binary_option o
}.

(** ** Two readings of the convenience call without [binaryCheck] *)

(** The option of a forced binary check that carries the filter of
    [option] and nothing else of it. *)
Definition forced_binary (option : CollisionOption) : CollisionOption :=
  mkCollisionOption false true 1 (collisionFilter option).

Section Readings.
Context `{Impl : CollisionDetectorImpl}.

(** The core call on the scratch result with the option of the caller
    as it is. *)
Definition collide_explicit_result (group : CollisionGroup)
    (option : CollisionOption) : M bool :=
  result ← getDummyCollisionResult;
  collide_result group option result.

(** The core call on the scratch result with the scratch option, set
    to the forced binary check carrying the filter of the caller. *)
Definition collide_forced_binary (group : CollisionGroup)
    (option : CollisionOption) : M bool :=
  store_dummy_option (forced_binary option);;
  result ← getDummyCollisionResult;
  collide_result group (forced_binary option) result.

End Readings.

(** The scratch result as [getDummyCollisionResult] hands it out. *)
Definition scratch_result (d : CollisionDetector) : CollisionResult :=
  default [] (mDummyCollisionResult d).

(** The scratch option as [getDummyCollisionOption] hands it out. *)
Definition scratch_option (d : CollisionDetector) : CollisionOption :=
  default (mkCollisionOption false true 1 None) (mDummyCollisionOption d).

(** The option that reaches the implementation from a convenience
    overload, and the scratch option the call leaves behind. *)
Definition option_used (option : CollisionOption) : CollisionOption :=
  if binaryCheck option then option else forced_binary option.

Definition scratch_option_after (opt : CollisionOption)
    (d : CollisionDetector) : option CollisionOption :=
  if binaryCheck opt then mDummyCollisionOption d
  else Some (forced_binary opt).

(** The sharing discipline under which the next request for a collision
    object is served: that of the manager, or the exclusive one when the
    manager is still to be constructed. *)
Definition policy (d : CollisionDetector) : Policy :=
  match mCollisionObjectManager d with
  | Some m => policy_of m
  | None => Exclusive
  end.

(** [d'] is a later state of [d]: allocation identities only grow, the
    sharing discipline stays, and an object of [d] that is still there
    in [d'] is for the same shape frame. *)
Definition evolves (d d' : CollisionDetector) : Prop :=
  next_object d ≤ next_object d' ∧
  policy d' = policy d ∧
  ∀ o c', o < next_object d → heap d' !! o = Some c' →
          ∃ c, heap d !! o = Some c ∧ getShapeFrame c = getShapeFrame c'.

(** The requests that store a filter into the scratch option. *)
Definition overwrites_scratch_filter (r : Request) : bool :=
  match r with
  | Collide _ opt => negb (binaryCheck opt)
  | Collide2 _ _ opt => negb (binaryCheck opt)
  | _ => false
  end.

Section Inputs.
Context `{Impl : CollisionDetectorImpl}.

(** The state of a new detector after a list of requests. *)
Definition state_after (p : option Policy) (rs : list Request)
  : CollisionDetector :=
  match run rs (newCollisionDetector p) with
  | Ok _ d => d
  | Err _ => newCollisionDetector p
  end.

End Inputs.

(** Detectors used as concrete inputs. *)
Definition base_detector : CollisionDetector :=
  newCollisionDetector None.
Definition shared_after_claim : CollisionDetector :=
  state_after (Impl := PairwiseDetector.impl) (Some Shared) [Claim 7].
Definition exclusive_after_claim : CollisionDetector :=
  state_after (Impl := PairwiseDetector.impl) None [Claim 7].
Definition after_filtered_query : CollisionDetector :=
  state_after (Impl := PairwiseDetector.impl) None
    [Claim 7; Claim 8; Claim 9;
     Collide [0; 1; 2] (mkCollisionOption true false 100 (Some 1))].
Definition full_option : CollisionOption :=
  mkCollisionOption true false 100 None.
Definition shared_after_release : CollisionDetector :=
  state_after (Impl := PairwiseDetector.impl) (Some Shared)
    [Claim 7; Claim 8; Claim 7; Release 1; Release 0].

(** ** The log of a detector *)

(** The objects constructed and the objects deleted, in the order of
    the log. *)
Definition created (t : list Event) : list ObjId :=
  omap (λ e, match e with EvCreate _ o => Some o | _ => None end) t.

Definition deleted (t : list Event) : list ObjId :=
  omap (λ e, match e with EvDelete o => Some o | _ => None end) t.

Definition is_query (e : Event) : bool :=
  match e with
  | EvCollide _ _ _ | EvCollide2 _ _ _ _ => true
  | _ => false
  end.

(** What one request can do to a well-formed detector: construct an
    object (under either discipline), add or drop an owner of a live
    object, destroy an object whose last owner goes (under either
    discipline), nothing, or one core query on the scratch members. *)
Inductive transition (d : CollisionDetector) : CollisionDetector → Prop :=
| transition_construct_exclusive sf :
    policy d = Exclusive →
    transition d
      (mkCollisionDetector (Some Unsharable)
         (mDummyCollisionOption d) (mDummyCollisionResult d)
         (<[next_object d := mkObjectCell sf 1 Exclusive]> (heap d))
         (S (next_object d)) (trace d ++ [EvCreate sf (next_object d)]))
| transition_construct_shared sf m :
    mCollisionObjectManager d = Some (Sharable m) →
    m !! sf = None →
    transition d
      (mkCollisionDetector (Some (Sharable (<[sf := next_object d]> m)))
         (mDummyCollisionOption d) (mDummyCollisionResult d)
         (<[next_object d := mkObjectCell sf 1 Shared]> (heap d))
         (S (next_object d)) (trace d ++ [EvCreate sf (next_object d)]))
| transition_share o c m :
    mCollisionObjectManager d = Some (Sharable m) →
    heap d !! o = Some c →
    transition d
      (set_heap (<[o := set_use_count (S (use_count c)) c]> (heap d)) d)
| transition_drop o c n :
    heap d !! o = Some c →
    use_count c = S (S n) →
    transition d (set_heap (<[o := set_use_count (S n) c]> (heap d)) d)
| transition_destroy_exclusive o c :
    heap d !! o = Some c →
    use_count c = 1 →
    deleter c = Exclusive →
    transition d
      (mkCollisionDetector (mCollisionObjectManager d)
         (mDummyCollisionOption d) (mDummyCollisionResult d)
         (delete o (heap d)) (next_object d)
         (trace d ++ [EvNotify o; EvDelete o]))
| transition_destroy_shared o c m :
    heap d !! o = Some c →
    use_count c = 1 →
    deleter c = Shared →
    mCollisionObjectManager d = Some (Sharable m) →
    transition d
      (mkCollisionDetector (Some (Sharable (delete (getShapeFrame c) m)))
         (mDummyCollisionOption d) (mDummyCollisionResult d)
         (delete o (heap d)) (next_object d)
         (trace d ++ [EvNotify o; EvErase (getShapeFrame c); EvDelete o]))
| transition_none :
    transition d d
| transition_query opt res e :
    is_query e = true →
    transition d
      (mkCollisionDetector (mCollisionObjectManager d) opt res
         (heap d) (next_object d) (trace d ++ [e])).

(** The detector [d] once a sharable manager with map [m] has
    constructed the object [o] for the shape frame [h], the object
    having [k] owners. *)
Definition with_shared_object (d : CollisionDetector) (m : gmap nat nat)
    (h o k : nat) : CollisionDetector :=
  mkCollisionDetector (Some (Sharable (<[h := o]> m)))
    (mDummyCollisionOption d) (mDummyCollisionResult d)
    (<[o := mkObjectCell h k Shared]> (heap d)) (S o)
    (trace d ++ [EvCreate h o]).

(** * Properties *)

Ltac msimpl :=
  unfold mbind, mret, M_bind, M_ret, get, modify, fail, assertion in *;
  cbn in *.

(** ** Outcomes of the primitive operations *)

Lemma unsharable_claim_outcome sf d :
  ManagerForUnsharableCollisionObjects.claimCollisionObject sf d =
  Ok (Some (next_object d))
     (mkCollisionDetector (mCollisionObjectManager d)
        (mDummyCollisionOption d) (mDummyCollisionResult d)
        (<[next_object d := mkObjectCell sf 1 Exclusive]> (heap d))
        (S (next_object d)) (trace d ++ [EvCreate sf (next_object d)])).
Proof.
  unfold ManagerForUnsharableCollisionObjects.claimCollisionObject,
    createCollisionObject, make_shared.
  msimpl. rewrite lookup_insert_eq. cbn.
  unfold set_heap, set_use_count; cbn. by rewrite insert_insert_eq.
Qed.

Lemma sharable_claim_miss sf d m :
  mCollisionObjectManager d = Some (Sharable m) →
  m !! sf = None →
  ManagerForSharableCollisionObjects.claimCollisionObject sf d =
  Ok (Some (next_object d))
     (mkCollisionDetector (Some (Sharable (<[sf := next_object d]> m)))
        (mDummyCollisionOption d) (mDummyCollisionResult d)
        (<[next_object d := mkObjectCell sf 1 Shared]> (heap d))
        (S (next_object d)) (trace d ++ [EvCreate sf (next_object d)])).
Proof.
  intros Hm Hsf.
  unfold ManagerForSharableCollisionObjects.claimCollisionObject,
    ManagerForSharableCollisionObjects.read_map,
    ManagerForSharableCollisionObjects.map_assign,
    ManagerForSharableCollisionObjects.read_map,
    ManagerForSharableCollisionObjects.write_map,
    createCollisionObject, make_shared.
  msimpl. rewrite Hm. cbn. rewrite Hsf. cbn.
  rewrite lookup_insert_eq. cbn. rewrite Hm. cbn.
  unfold set_manager, set_heap, set_use_count; cbn.
  by rewrite insert_insert_eq.
Qed.

Lemma sharable_claim_hit sf d m o c :
  mCollisionObjectManager d = Some (Sharable m) →
  m !! sf = Some o →
  heap d !! o = Some c →
  0 < use_count c →
  ManagerForSharableCollisionObjects.claimCollisionObject sf d =
  Ok (Some o)
     (set_heap (<[o := set_use_count (S (use_count c)) c]> (heap d)) d).
Proof.
  intros Hm Hsf Ho Hc.
  unfold ManagerForSharableCollisionObjects.claimCollisionObject,
    ManagerForSharableCollisionObjects.read_map, lock, expired.
  msimpl. rewrite Hm. cbn. rewrite Hsf. cbn. rewrite Ho. cbn.
  destruct (use_count c) eqn:E; [lia|]. cbn. rewrite Ho, E. done.
Qed.

(** A lookup that finds a dead weak pointer trips the assertion. *)
Lemma sharable_claim_dead sf d m o :
  mCollisionObjectManager d = Some (Sharable m) →
  m !! sf = Some o →
  expired o d = true →
  ManagerForSharableCollisionObjects.claimCollisionObject sf d =
  Err AssertionFailed.
Proof.
  intros Hm Hsf Ho.
  unfold ManagerForSharableCollisionObjects.claimCollisionObject,
    ManagerForSharableCollisionObjects.read_map.
  msimpl. rewrite Hm. cbn. rewrite Hsf. cbn. by rewrite Ho.
Qed.

Lemma release_not_last o c n d :
  heap d !! o = Some c →
  use_count c = S (S n) →
  release (Some o) d =
  Ok tt (set_heap (<[o := set_use_count (S n) c]> (heap d)) d).
Proof. intros Ho Hc. unfold release. by rewrite Ho, Hc. Qed.

Lemma release_last_exclusive o c d :
  heap d !! o = Some c →
  use_count c = 1 →
  deleter c = Exclusive →
  release (Some o) d =
  Ok tt (mkCollisionDetector (mCollisionObjectManager d)
           (mDummyCollisionOption d) (mDummyCollisionResult d)
           (delete o (heap d)) (next_object d)
           (trace d ++ [EvNotify o; EvDelete o])).
Proof.
  intros Ho Hc Hdel. unfold release. rewrite Ho, Hc, Hdel.
  unfold ManagerForUnsharableCollisionObjects.CollisionObjectDeleter,
    notifyCollisionObjectDestroying, delete_object.
  msimpl. unfold log, set_heap; cbn.
  by rewrite <- app_assoc, delete_insert_eq.
Qed.

Lemma release_last_shared o c m d :
  heap d !! o = Some c →
  use_count c = 1 →
  deleter c = Shared →
  mCollisionObjectManager d = Some (Sharable m) →
  release (Some o) d =
  Ok tt (mkCollisionDetector (Some (Sharable (delete (getShapeFrame c) m)))
           (mDummyCollisionOption d) (mDummyCollisionResult d)
           (delete o (heap d)) (next_object d)
           (trace d ++ [EvNotify o; EvErase (getShapeFrame c); EvDelete o])).
Proof.
  intros Ho Hc Hdel Hm. unfold release. rewrite Ho, Hc, Hdel.
  unfold ManagerForSharableCollisionObjects.CollisionObjectDeleter,
    ManagerForSharableCollisionObjects.map_erase,
    ManagerForSharableCollisionObjects.read_map,
    ManagerForSharableCollisionObjects.write_map,
    notifyCollisionObjectDestroying, object_getShapeFrame, delete_object.
  msimpl. rewrite lookup_insert_eq. cbn. rewrite Hm. cbn.
  unfold log, set_heap, set_manager; cbn.
  by rewrite <- !app_assoc, delete_insert_eq.
Qed.

Lemma release_absent o d :
  heap d !! o = None → release (Some o) d = Ok tt d.
Proof. intros Ho. unfold release. by rewrite Ho. Qed.

Lemma claim_with_manager sf d m :
  mCollisionObjectManager d = Some m →
  claimCollisionObject sf d = manager_claimCollisionObject m sf d.
Proof.
  intros Hm. unfold claimCollisionObject. msimpl. rewrite Hm. cbn.
  by rewrite Hm.
Qed.

Lemma claim_without_manager sf d :
  mCollisionObjectManager d = None →
  claimCollisionObject sf d =
  ManagerForUnsharableCollisionObjects.claimCollisionObject sf
    (set_manager (Some Unsharable) d).
Proof.
  intros Hm. unfold claimCollisionObject. msimpl. by rewrite Hm.
Qed.

Lemma getDummyCollisionResult_outcome d :
  getDummyCollisionResult d =
  Ok (scratch_result d) (set_result (Some (scratch_result d)) d).
Proof.
  unfold getDummyCollisionResult, scratch_result. msimpl.
  destruct d as [m o [r|] h n t]; reflexivity.
Qed.

Lemma getDummyCollisionOption_outcome d :
  getDummyCollisionOption d =
  Ok (scratch_option d) (set_option (Some (scratch_option d)) d).
Proof.
  unfold getDummyCollisionOption, scratch_option. msimpl.
  destruct d as [m [o|] r h n t]; reflexivity.
Qed.

Section CollideOutcomes.
Context `{Impl : CollisionDetectorImpl}.

Lemma collide_explicit_result_outcome group option d :
  collide_explicit_result group option d =
  Ok (collide_impl group option (scratch_result d)).1
     (mkCollisionDetector (mCollisionObjectManager d)
        (mDummyCollisionOption d)
        (Some (collide_impl group option (scratch_result d)).2)
        (heap d) (next_object d)
        (trace d ++ [EvCollide group option (scratch_result d)])).
Proof.
  unfold collide_explicit_result, collide_result. msimpl.
  rewrite getDummyCollisionResult_outcome.
  by destruct (collide_impl group option (scratch_result d)).
Qed.

Lemma collide2_explicit_result_outcome group1 group2 option d :
  (result ← getDummyCollisionResult;
   collide2_result group1 group2 option result) d =
  Ok (collide2_impl group1 group2 option (scratch_result d)).1
     (mkCollisionDetector (mCollisionObjectManager d)
        (mDummyCollisionOption d)
        (Some (collide2_impl group1 group2 option (scratch_result d)).2)
        (heap d) (next_object d)
        (trace d ++ [EvCollide2 group1 group2 option (scratch_result d)])).
Proof.
  unfold collide2_result. msimpl.
  rewrite getDummyCollisionResult_outcome.
  by destruct (collide2_impl group1 group2 option (scratch_result d)).
Qed.

Lemma collide_binary group option d :
  binaryCheck option = true →
  collide group option d = collide_explicit_result group option d.
Proof. intros Hb. unfold collide. by rewrite Hb. Qed.

Lemma collide_not_binary group option d :
  binaryCheck option = false →
  binary_option (scratch_option d) →
  collide group option d = collide_forced_binary group option d.
Proof.
  intros Hb (He & Hc & Hn). unfold collide, collide_forced_binary.
  rewrite Hb. msimpl. rewrite getDummyCollisionOption_outcome.
  unfold store_dummy_option, modify. cbn.
  rewrite He, Hc, Hn. cbn.
  replace (set_collisionFilter (collisionFilter option) (scratch_option d))
    with (forced_binary option); [done|].
  unfold set_collisionFilter, forced_binary. by rewrite He, Hc, Hn.
Qed.

End CollideOutcomes.

(** ** Well-formedness is kept by every request *)

Lemma wf_new p : wf (newCollisionDetector p).
Proof.
  split; cbn; try (intros ??; by rewrite lookup_empty).
  - intros m sf o Hm. destruct p as [[]|]; simplify_eq/=.
    by rewrite lookup_empty.
  - done.
Qed.

Lemma wf_no_manager d o :
  wf d → mCollisionObjectManager d = None → heap d !! o = None.
Proof.
  intros Hwf Hm. destruct (heap d !! o) as [c|] eqn:Ho; [|done].
  apply (wf_deleter d Hwf) in Ho. by rewrite Hm in Ho.
Qed.

Lemma wf_next_absent d :
  wf d → heap d !! next_object d = None.
Proof.
  intros Hwf. destruct (heap d !! next_object d) as [c|] eqn:Ho; [|done].
  apply (wf_fresh d Hwf) in Ho. lia.
Qed.

Lemma wf_unsharable_claim sf d :
  wf d →
  policy_of <$> mCollisionObjectManager d = Some Exclusive →
  wf (mkCollisionDetector (mCollisionObjectManager d)
        (mDummyCollisionOption d) (mDummyCollisionResult d)
        (<[next_object d := mkObjectCell sf 1 Exclusive]> (heap d))
        (S (next_object d)) (trace d ++ [EvCreate sf (next_object d)])).
Proof.
  intros Hwf Hp. split; cbn.
  - intros o c. rewrite lookup_insert. case_decide; [lia|].
    intros Ho. apply (wf_fresh d Hwf) in Ho. lia.
  - intros o c. rewrite lookup_insert. case_decide.
    + intros [= <-]. cbn. lia.
    + apply (wf_owned d Hwf).
  - intros o c. rewrite lookup_insert. case_decide.
    + by intros [= <-].
    + apply (wf_deleter d Hwf).
  - intros m sf' o Hm. rewrite Hm in Hp. done.
  - intros m o c Hm. rewrite Hm in Hp. done.
  - apply (wf_dummy d Hwf).
Qed.

Lemma wf_sharable_claim_miss sf d m :
  wf d →
  mCollisionObjectManager d = Some (Sharable m) →
  m !! sf = None →
  wf (mkCollisionDetector (Some (Sharable (<[sf := next_object d]> m)))
        (mDummyCollisionOption d) (mDummyCollisionResult d)
        (<[next_object d := mkObjectCell sf 1 Shared]> (heap d))
        (S (next_object d)) (trace d ++ [EvCreate sf (next_object d)])).
Proof.
  intros Hwf Hm Hsf. split; cbn.
  - intros o c. rewrite lookup_insert. case_decide; [lia|].
    intros Ho. apply (wf_fresh d Hwf) in Ho. lia.
  - intros o c. rewrite lookup_insert. case_decide.
    + intros [= <-]. cbn. lia.
    + apply (wf_owned d Hwf).
  - intros o c. rewrite lookup_insert. case_decide.
    + by intros [= <-].
    + intros Ho. apply (wf_deleter d Hwf) in Ho. by rewrite Hm in Ho.
  - intros m' sf' o [= <-]. rewrite lookup_insert. case_decide.
    + intros [= <-]. subst sf'. rewrite lookup_insert_eq. eauto.
    + intros Ho. destruct (wf_map_live d Hwf m sf' o Hm Ho) as (c & Hc & Hf).
      exists c. split; [|done]. rewrite lookup_insert_ne; [done|].
      apply (wf_fresh d Hwf) in Hc. lia.
  - intros m' o c [= <-]. rewrite lookup_insert. case_decide.
    + intros [= <-]. subst o. cbn. by rewrite lookup_insert_eq.
    + intros Ho. pose proof (wf_live_map d Hwf m o c Hm Ho) as Hmo.
      rewrite lookup_insert_ne; [done|]. intros Heq. congruence.
  - apply (wf_dummy d Hwf).
Qed.

Lemma wf_set_use_count o c n d :
  wf d →
  heap d !! o = Some c →
  0 < n →
  wf (set_heap (<[o := set_use_count n c]> (heap d)) d).
Proof.
  intros Hwf Ho Hn. split; cbn.
  - intros o' c'. rewrite lookup_insert. case_decide.
    + subst o'. intros _. by apply (wf_fresh d Hwf o c).
    + apply (wf_fresh d Hwf).
  - intros o' c'. rewrite lookup_insert. case_decide.
    + by intros [= <-].
    + apply (wf_owned d Hwf).
  - intros o' c'. rewrite lookup_insert. case_decide.
    + subst o'. intros [= <-]. cbn. by apply (wf_deleter d Hwf o c).
    + apply (wf_deleter d Hwf).
  - intros m sf o' Hm Hsf.
    destruct (wf_map_live d Hwf m sf o' Hm Hsf) as (c' & Hc' & Hf).
    rewrite lookup_insert. case_decide.
    + subst o'. exists (set_use_count n c). split; [done|]. cbn. congruence.
    + eauto.
  - intros m o' c' Hm. rewrite lookup_insert. case_decide.
    + subst o'. intros [= <-]. cbn. by apply (wf_live_map d Hwf m o c).
    + by apply (wf_live_map d Hwf).
  - apply (wf_dummy d Hwf).
Qed.

Lemma wf_release_last_exclusive o c d :
  wf d →
  heap d !! o = Some c →
  deleter c = Exclusive →
  wf (mkCollisionDetector (mCollisionObjectManager d)
        (mDummyCollisionOption d) (mDummyCollisionResult d)
        (delete o (heap d)) (next_object d)
        (trace d ++ [EvNotify o; EvDelete o])).
Proof.
  intros Hwf Ho Hdel.
  pose proof (wf_deleter d Hwf o c Ho) as Hp. rewrite Hdel in Hp.
  split; cbn.
  - intros o' c'. rewrite lookup_delete_Some. intros [_ H].
    by apply (wf_fresh d Hwf o' c').
  - intros o' c'. rewrite lookup_delete_Some. intros [_ H].
    by apply (wf_owned d Hwf o' c').
  - intros o' c'. rewrite lookup_delete_Some. intros [_ H].
    by apply (wf_deleter d Hwf o' c').
  - intros m sf o' Hm. rewrite Hm in Hp. done.
  - intros m o' c' Hm. rewrite Hm in Hp. done.
  - apply (wf_dummy d Hwf).
Qed.

Lemma wf_release_last_shared o c m d :
  wf d →
  heap d !! o = Some c →
  mCollisionObjectManager d = Some (Sharable m) →
  wf (mkCollisionDetector (Some (Sharable (delete (getShapeFrame c) m)))
        (mDummyCollisionOption d) (mDummyCollisionResult d)
        (delete o (heap d)) (next_object d)
        (trace d ++ [EvNotify o; EvErase (getShapeFrame c); EvDelete o])).
Proof.
  intros Hwf Ho Hm.
  pose proof (wf_live_map d Hwf m o c Hm Ho) as Hmo.
  split; cbn.
  - intros o' c'. rewrite lookup_delete_Some. intros [_ H].
    by apply (wf_fresh d Hwf o' c').
  - intros o' c'. rewrite lookup_delete_Some. intros [_ H].
    by apply (wf_owned d Hwf o' c').
  - intros o' c'. rewrite lookup_delete_Some. intros [_ H].
    apply (wf_deleter d Hwf) in H. by rewrite Hm in H.
  - intros m' sf o' [= <-]. rewrite lookup_delete_Some. intros [Hne Hsf].
    destruct (wf_map_live d Hwf m sf o' Hm Hsf) as (c' & Hc' & Hf).
    exists c'. split; [|done]. rewrite lookup_delete_ne; [done|].
    intros <-. congruence.
  - intros m' o' c' [= <-]. rewrite lookup_delete_Some. intros [Hne Ho'].
    pose proof (wf_live_map d Hwf m o' c' Hm Ho') as Hmo'.
    rewrite lookup_delete_ne; [done|]. intros Heq. congruence.
  - apply (wf_dummy d Hwf).
Qed.

Lemma wf_scratch d opt res t :
  wf d →
  (∀ o, opt = Some o → binary_option o) →
  wf (mkCollisionDetector (mCollisionObjectManager d) opt res
        (heap d) (next_object d) t).
Proof.
  intros Hwf Hopt. split; cbn; [apply Hwf..|done].
Qed.

Lemma wf_scratch_option d : wf d → binary_option (scratch_option d).
Proof.
  intros Hwf. unfold scratch_option.
  destruct (mDummyCollisionOption d) as [o|] eqn:E; cbn.
  - by apply (wf_dummy d Hwf).
  - done.
Qed.

Lemma forced_binary_is_binary option : binary_option (forced_binary option).
Proof. done. Qed.

Lemma wf_set_manager d :
  wf d →
  mCollisionObjectManager d = None →
  wf (set_manager (Some Unsharable) d).
Proof.
  intros Hwf Hm. split; cbn.
  - apply Hwf.
  - apply Hwf.
  - intros o c Ho. by rewrite (wf_no_manager d o Hwf Hm) in Ho.
  - intros m sf o [=].
  - intros m o c [=].
  - apply Hwf.
Qed.

Lemma wf_claim sf d p d' :
  wf d → claimCollisionObject sf d = Ok p d' → wf d'.
Proof.
  intros Hwf. destruct (mCollisionObjectManager d) as [[|m]|] eqn:Hm.
  - rewrite (claim_with_manager sf d _ Hm). cbn.
    rewrite unsharable_claim_outcome. intros [= _ <-].
    apply wf_unsharable_claim; [done|]. by rewrite Hm.
  - rewrite (claim_with_manager sf d _ Hm). cbn.
    destruct (m !! sf) as [o|] eqn:Hsf.
    + destruct (wf_map_live d Hwf m sf o Hm Hsf) as (c & Hc & _).
      pose proof (wf_owned d Hwf o c Hc) as Hpos.
      rewrite (sharable_claim_hit sf d m o c Hm Hsf Hc Hpos).
      intros [= _ <-]. apply wf_set_use_count; [done..|lia].
    + rewrite (sharable_claim_miss sf d m Hm Hsf). intros [= _ <-].
      by apply wf_sharable_claim_miss.
  - rewrite (claim_without_manager sf d Hm), unsharable_claim_outcome.
    intros [= _ <-].
    apply (wf_unsharable_claim sf (set_manager (Some Unsharable) d));
      [by apply wf_set_manager|done].
Qed.

Lemma wf_release o d d' :
  wf d → release (Some o) d = Ok tt d' → wf d'.
Proof.
  intros Hwf. destruct (heap d !! o) as [c|] eqn:Ho.
  - pose proof (wf_owned d Hwf o c Ho) as Hpos.
    pose proof (wf_deleter d Hwf o c Ho) as Hdel.
    destruct (use_count c) as [|[|n]] eqn:Hc; [lia| |].
    + destruct (deleter c) eqn:Hk.
      * rewrite (release_last_exclusive o c d Ho Hc Hk). intros [= <-].
        by apply (wf_release_last_exclusive o c d).
      * destruct (mCollisionObjectManager d) as [[|m]|] eqn:Hm;
          cbn in Hdel; [congruence| |discriminate].
        rewrite (release_last_shared o c m d Ho Hc Hk Hm). intros [= <-].
        by apply (wf_release_last_shared o c m d).
    + rewrite (release_not_last o c n d Ho Hc). intros [= <-].
      apply wf_set_use_count; [done..|lia].
  - rewrite (release_absent o d Ho). by intros [= <-].
Qed.

Section Reachable.
Context `{Impl : CollisionDetectorImpl}.

Lemma collide_outcome group option d :
  wf d →
  collide group option d =
  Ok (collide_impl group (option_used option) (scratch_result d)).1
     (mkCollisionDetector (mCollisionObjectManager d)
        (scratch_option_after option d)
        (Some (collide_impl group (option_used option) (scratch_result d)).2)
        (heap d) (next_object d)
        (trace d ++ [EvCollide group (option_used option) (scratch_result d)])).
Proof.
  intros Hwf. unfold option_used, scratch_option_after.
  destruct (binaryCheck option) eqn:Hb.
  - by rewrite collide_binary, collide_explicit_result_outcome.
  - rewrite collide_not_binary by auto using wf_scratch_option.
    unfold collide_forced_binary, store_dummy_option.
    pose proof (collide_explicit_result_outcome group (forced_binary option)
                  (set_option (Some (forced_binary option)) d)) as H.
    unfold collide_explicit_result in H. msimpl. exact H.
Qed.

Lemma collide2_outcome group1 group2 option d :
  wf d →
  collide2 group1 group2 option d =
  Ok (collide2_impl group1 group2 (option_used option) (scratch_result d)).1
     (mkCollisionDetector (mCollisionObjectManager d)
        (scratch_option_after option d)
        (Some (collide2_impl group1 group2 (option_used option)
                 (scratch_result d)).2)
        (heap d) (next_object d)
        (trace d ++ [EvCollide2 group1 group2 (option_used option)
                       (scratch_result d)])).
Proof.
  intros Hwf. unfold option_used, scratch_option_after, collide2.
  destruct (binaryCheck option) eqn:Hb.
  - by rewrite collide2_explicit_result_outcome.
  - destruct (wf_scratch_option d Hwf) as (He & Hc & Hn).
    msimpl. rewrite getDummyCollisionOption_outcome.
    unfold store_dummy_option, modify. cbn. rewrite He, Hc, Hn. cbn.
    replace (set_collisionFilter (collisionFilter option) (scratch_option d))
      with (forced_binary option)
      by (unfold set_collisionFilter, forced_binary; by rewrite He, Hc, Hn).
    pose proof (collide2_explicit_result_outcome group1 group2
                  (forced_binary option)
                  (set_option (Some (forced_binary option)) d)) as H.
    msimpl. exact H.
Qed.

Lemma wf_step d d' : wf d → step d d' → wf d'.
Proof.
  intros Hwf [r Hr]. destruct r as [sf|o|g opt|g1 g2 opt]; cbn in Hr.
  - unfold mbind, M_bind in Hr.
    destruct (claimCollisionObject sf d) as [p d1|] eqn:E; [|done].
    cbn in Hr. injection Hr as <-. by eapply wf_claim.
  - by eapply wf_release.
  - unfold mbind, M_bind in Hr. rewrite collide_outcome in Hr by done.
    cbn in Hr. injection Hr as <-. apply wf_scratch; [done|].
    unfold scratch_option_after. destruct (binaryCheck opt).
    + apply (wf_dummy d Hwf).
    + by intros o [= <-].
  - unfold mbind, M_bind in Hr. rewrite collide2_outcome in Hr by done.
    cbn in Hr. injection Hr as <-. apply wf_scratch; [done|].
    unfold scratch_option_after. destruct (binaryCheck opt).
    + apply (wf_dummy d Hwf).
    + by intros o [= <-].
Qed.

Lemma wf_steps d d' : wf d → rtc step d d' → wf d'.
Proof. intros Hwf Hs. induction Hs; eauto using wf_step. Qed.

Lemma wf_reachable d : reachable d → wf d.
Proof. intros [p Hs]. eapply wf_steps; [apply wf_new|done]. Qed.

End Reachable.

(** ** Later states *)

Lemma evolves_refl d : evolves d d.
Proof. repeat split; eauto. Qed.

Lemma evolves_trans d1 d2 d3 : evolves d1 d2 → evolves d2 d3 → evolves d1 d3.
Proof.
  intros (Hn1 & Hp1 & Hh1) (Hn2 & Hp2 & Hh2). repeat split.
  - lia.
  - congruence.
  - intros o c3 Ho Hc3.
    destruct (Hh2 o c3 ltac:(lia) Hc3) as (c2 & Hc2 & Hf2).
    destruct (Hh1 o c2 Ho Hc2) as (c1 & Hc1 & Hf1).
    exists c1. split; [done|congruence].
Qed.

Lemma evolves_scratch d opt res t :
  evolves d (mkCollisionDetector (mCollisionObjectManager d) opt res
               (heap d) (next_object d) t).
Proof. repeat split; eauto. Qed.

Lemma evolves_allocate d mgr sf pol t :
  wf d →
  policy_of mgr = policy d →
  evolves d (mkCollisionDetector (Some mgr)
               (mDummyCollisionOption d) (mDummyCollisionResult d)
               (<[next_object d := mkObjectCell sf 1 pol]> (heap d))
               (S (next_object d)) t).
Proof.
  intros Hwf Hp. repeat split; cbn; [lia|done|].
  intros o c' Ho. rewrite lookup_insert_ne by lia. eauto.
Qed.

Lemma evolves_set_use_count d o c n :
  heap d !! o = Some c →
  evolves d (set_heap (<[o := set_use_count n c]> (heap d)) d).
Proof.
  intros Hc. repeat split; cbn; [done|].
  intros o' c' _. rewrite lookup_insert. case_decide.
  - subst o'. intros [= <-]. eauto.
  - eauto.
Qed.

Lemma evolves_delete d mgr o t :
  policy_of mgr = policy d →
  evolves d (mkCollisionDetector (Some mgr)
               (mDummyCollisionOption d) (mDummyCollisionResult d)
               (delete o (heap d)) (next_object d) t).
Proof.
  intros Hp. repeat split; cbn; [done..|].
  intros o' c' _. rewrite lookup_delete_Some. intros [_ H]. eauto.
Qed.

Lemma claim_evolves sf d p d' :
  wf d → claimCollisionObject sf d = Ok p d' → evolves d d'.
Proof.
  intros Hwf. destruct (mCollisionObjectManager d) as [[|m]|] eqn:Hm.
  - rewrite (claim_with_manager sf d _ Hm). cbn.
    rewrite unsharable_claim_outcome, Hm. intros [= _ <-].
    apply evolves_allocate; [done|]. unfold policy. by rewrite Hm.
  - rewrite (claim_with_manager sf d _ Hm). cbn.
    destruct (m !! sf) as [o|] eqn:Hsf.
    + destruct (wf_map_live d Hwf m sf o Hm Hsf) as (c & Hc & _).
      pose proof (wf_owned d Hwf o c Hc) as Hpos.
      rewrite (sharable_claim_hit sf d m o c Hm Hsf Hc Hpos).
      intros [= _ <-]. by apply evolves_set_use_count.
    + rewrite (sharable_claim_miss sf d m Hm Hsf). intros [= _ <-].
      apply evolves_allocate; [done|]. unfold policy. by rewrite Hm.
  - rewrite (claim_without_manager sf d Hm), unsharable_claim_outcome.
    intros [= _ <-]. cbn.
    apply (evolves_allocate d Unsharable); [done|]. unfold policy.
    by rewrite Hm.
Qed.

Lemma release_evolves o d d' :
  wf d → release (Some o) d = Ok tt d' → evolves d d'.
Proof.
  intros Hwf. destruct (heap d !! o) as [c|] eqn:Ho.
  - pose proof (wf_owned d Hwf o c Ho) as Hpos.
    pose proof (wf_deleter d Hwf o c Ho) as Hdel.
    destruct (use_count c) as [|[|n]] eqn:Hc; [lia| |].
    + destruct (mCollisionObjectManager d) as [[|m]|] eqn:Hm;
        cbn in Hdel; [| |discriminate].
      * rewrite (release_last_exclusive o c d Ho Hc) by congruence.
        rewrite Hm. intros [= <-]. apply evolves_delete.
        unfold policy. by rewrite Hm.
      * rewrite (release_last_shared o c m d Ho Hc) by congruence.
        intros [= <-]. apply evolves_delete. unfold policy. by rewrite Hm.
    + rewrite (release_not_last o c n d Ho Hc). intros [= <-].
      by apply evolves_set_use_count.
  - rewrite (release_absent o d Ho). intros [= <-]. apply evolves_refl.
Qed.

Section Evolution.
Context `{Impl : CollisionDetectorImpl}.

Lemma step_evolves d d' : wf d → step d d' → evolves d d'.
Proof.
  intros Hwf [r Hr]. destruct r as [sf|o|g opt|g1 g2 opt]; cbn in Hr.
  - unfold mbind, M_bind in Hr.
    destruct (claimCollisionObject sf d) as [p d1|] eqn:E; [|done].
    cbn in Hr. injection Hr as <-. by eapply claim_evolves.
  - by eapply release_evolves.
  - unfold mbind, M_bind in Hr. rewrite collide_outcome in Hr by done.
    cbn in Hr. injection Hr as <-. apply evolves_scratch.
  - unfold mbind, M_bind in Hr. rewrite collide2_outcome in Hr by done.
    cbn in Hr. injection Hr as <-. apply evolves_scratch.
Qed.

Lemma steps_evolves d d' : wf d → rtc step d d' → evolves d d'.
Proof.
  intros Hwf Hs. induction Hs as [|d1 d2 d3 H12 H23 IH].
  - apply evolves_refl.
  - eapply evolves_trans; [by apply step_evolves|].
    apply IH. by eapply wf_step.
Qed.

Lemma run_steps rs d d' : run rs d = Ok tt d' → rtc step d d'.
Proof.
  revert d. induction rs as [|r rs IH]; intros d; cbn.
  - intros [= <-]. apply rtc_refl.
  - unfold mbind, M_bind. destruct (handle r d) as [[] d1|] eqn:E; [|done].
    intros Hrs. eapply rtc_l; [by exists r|]. by apply IH.
Qed.

Lemma reachable_steps d d' : reachable d → rtc step d d' → reachable d'.
Proof. intros [p Hp] Hs. exists p. by etrans. Qed.

Lemma state_after_reachable p rs :
  is_Some (state_of (run rs (newCollisionDetector p))) →
  reachable (state_after p rs).
Proof.
  unfold state_after. intros [d' Hd'].
  destruct (run rs (newCollisionDetector p)) as [[] d|] eqn:E; [|done].
  exists p. by apply (run_steps rs).
Qed.

End Evolution.

(** * The convenience overloads of [collide] *)

Section ConvenienceOverloads.
Context `{Impl : CollisionDetectorImpl}.

(** C1 (as amended): for every group and every option with
    [binaryCheck = false], on every reachable detector,
    [collide(group, option)] is the core call
    [collide(group, option', result)] on the scratch result, where
    [option'] is the scratch option set to the forced binary check
    ([enableContact = false], [binaryCheck = true],
    [maxNumContacts = 1]) that carries the filter of the caller; so the
    call depends on the option of the caller through its filter only. *)
Theorem collide_not_binary_is_forced_binary d group opt :
  reachable d →
  binaryCheck opt = false →
  collide group opt d = collide_forced_binary group opt d ∧
  ∀ opt2, binaryCheck opt2 = false →
          collisionFilter opt2 = collisionFilter opt →
          collide group opt2 d = collide group opt d.
Proof.
  intros Hd Hb. apply wf_reachable in Hd.
  pose proof (wf_scratch_option d Hd) as Hs. split.
  - by apply collide_not_binary.
  - intros opt2 Hb2 Hf. rewrite !collide_not_binary by done.
    unfold collide_forced_binary, forced_binary. by rewrite Hf.
Qed.

(** C2: on every reachable detector, [collide(group, option)] and
    [collide(group1, group2, option)] make one call of the core
    overload, on the scratch result; with [binaryCheck] set the option
    of the caller is passed on as it is and the scratch option is not
    touched, otherwise the option passed on is the scratch option, a
    forced binary check into which only the filter of the caller was
    copied. *)
Theorem convenience_collide_delegates d group group1 group2 opt :
  reachable d →
  let used :=
    if binaryCheck opt then opt
    else mkCollisionOption false true 1 (collisionFilter opt) in
  let scratch :=
    if binaryCheck opt then mDummyCollisionOption d else Some used in
  let result := default [] (mDummyCollisionResult d) in
  collide group opt d =
    Ok (collide_impl group used result).1
       (mkCollisionDetector (mCollisionObjectManager d) scratch
          (Some (collide_impl group used result).2)
          (heap d) (next_object d)
          (trace d ++ [EvCollide group used result])) ∧
  collide2 group1 group2 opt d =
    Ok (collide2_impl group1 group2 used result).1
       (mkCollisionDetector (mCollisionObjectManager d) scratch
          (Some (collide2_impl group1 group2 used result).2)
          (heap d) (next_object d)
          (trace d ++ [EvCollide2 group1 group2 used result])).
Proof.
  intros Hd. apply wf_reachable in Hd. cbv zeta. split.
  - rewrite collide_outcome by done.
    unfold option_used, scratch_option_after, forced_binary, scratch_result.
    by destruct (binaryCheck opt).
  - rewrite collide2_outcome by done.
    unfold option_used, scratch_option_after, forced_binary, scratch_result.
    by destruct (binaryCheck opt).
Qed.

(** C9: [getDummyCollisionOption] constructs the scratch option with
    [enableContact = false], [binaryCheck = true],
    [maxNumContacts = 1] and no filter; in every reachable detector the
    scratch option, once constructed, has these three values; and there
    the convenience overloads run to their end, so none of their
    assertions on these fields fails. *)
Theorem dummy_option_is_binary d :
  reachable d →
  (mDummyCollisionOption d = None →
     getDummyCollisionOption d =
       Ok (mkCollisionOption false true 1 None)
          (set_option (Some (mkCollisionOption false true 1 None)) d)) ∧
  (∀ o, mDummyCollisionOption d = Some o →
        enableContact o = false ∧ binaryCheck o = true ∧
        maxNumContacts o = 1%N) ∧
  (∀ o d', getDummyCollisionOption d = Ok o d' →
        enableContact o = false ∧ binaryCheck o = true ∧
        maxNumContacts o = 1%N) ∧
  (∀ group opt, is_Some (value_of (collide group opt d))) ∧
  (∀ group1 group2 opt, is_Some (value_of (collide2 group1 group2 opt d))).
Proof.
  intros Hd. apply wf_reachable in Hd. split_and!.
  - intros Hn. rewrite getDummyCollisionOption_outcome.
    unfold scratch_option. by rewrite Hn.
  - apply (wf_dummy d Hd).
  - intros o d'. rewrite getDummyCollisionOption_outcome.
    intros [= <- _]. by apply wf_scratch_option.
  - intros group opt. by rewrite collide_outcome.
  - intros group1 group2 opt. by rewrite collide2_outcome.
Qed.

Lemma handle_keeps_scratch_option r d d' :
  wf d →
  overwrites_scratch_filter r = false →
  handle r d = Ok tt d' →
  mDummyCollisionOption d' = mDummyCollisionOption d.
Proof.
  intros Hwf Hr. destruct r as [sf|o|g opt|g1 g2 opt]; unfold handle.
  - unfold mbind, M_bind.
    destruct (claimCollisionObject sf d) as [p d1|] eqn:E; [|done].
    cbn. intros [= <-]. revert E.
    destruct (mCollisionObjectManager d) as [[|m]|] eqn:Hm.
    + rewrite (claim_with_manager sf d _ Hm). cbn.
      rewrite unsharable_claim_outcome. by intros [= _ <-].
    + rewrite (claim_with_manager sf d _ Hm). cbn.
      destruct (m !! sf) as [o|] eqn:Hsf.
      * destruct (wf_map_live d Hwf m sf o Hm Hsf) as (c & Hc & _).
        pose proof (wf_owned d Hwf o c Hc) as Hpos.
        rewrite (sharable_claim_hit sf d m o c Hm Hsf Hc Hpos).
        by intros [= _ <-].
      * rewrite (sharable_claim_miss sf d m Hm Hsf). by intros [= _ <-].
    + rewrite (claim_without_manager sf d Hm), unsharable_claim_outcome.
      by intros [= _ <-].
  - destruct (heap d !! o) as [c|] eqn:Ho.
    + pose proof (wf_owned d Hwf o c Ho) as Hpos.
      pose proof (wf_deleter d Hwf o c Ho) as Hdel.
      destruct (use_count c) as [|[|n]] eqn:Hc; [lia| |].
      * destruct (mCollisionObjectManager d) as [[|m]|] eqn:Hm;
          cbn in Hdel; [| |discriminate].
        -- rewrite (release_last_exclusive o c d Ho Hc) by congruence.
           by intros [= <-].
        -- rewrite (release_last_shared o c m d Ho Hc) by congruence.
           by intros [= <-].
      * rewrite (release_not_last o c n d Ho Hc). by intros [= <-].
    + rewrite (release_absent o d Ho). by intros [= <-].
  - unfold mbind, M_bind. rewrite collide_outcome by done.
    cbn. intros [= <-]. cbn. unfold scratch_option_after.
    cbn in Hr. by destruct (binaryCheck opt).
  - unfold mbind, M_bind. rewrite collide2_outcome by done.
    cbn. intros [= <-]. cbn. unfold scratch_option_after.
    cbn in Hr. by destruct (binaryCheck opt).
Qed.

Lemma run_keeps_scratch_option rs d d' :
  wf d →
  Forall (λ r, overwrites_scratch_filter r = false) rs →
  run rs d = Ok tt d' →
  mDummyCollisionOption d' = mDummyCollisionOption d.
Proof.
  intros Hwf Hrs. revert d Hwf.
  induction Hrs as [|r rs Hr Hrs IH]; intros d Hwf; cbn.
  - by intros [= <-].
  - unfold mbind, M_bind. destruct (handle r d) as [[] d1|] eqn:E; [|done].
    intros Hrun. rewrite (IH d1); [by eapply handle_keeps_scratch_option| |done].
    eapply wf_step; [done|by exists r].
Qed.

(** C10: on every reachable detector, a convenience call with
    [binaryCheck = false] leaves a scratch option whose filter is the
    filter of the caller and whose other three fields are those the
    scratch option had; a convenience call with [binaryCheck = true]
    leaves the scratch option as it was; and so does every sequence of
    requests without a convenience call with [binaryCheck = false]:
    the stored filter stays until the next such call. *)
Theorem convenience_collide_scratch_option d opt :
  reachable d →
  (∀ d', (∃ group, state_of (collide group opt d) = Some d') ∨
         (∃ group1 group2,
            state_of (collide2 group1 group2 opt d) = Some d') →
     if binaryCheck opt
     then mDummyCollisionOption d' = mDummyCollisionOption d
     else ∃ o', mDummyCollisionOption d' = Some o' ∧
                collisionFilter o' = collisionFilter opt ∧
                enableContact o' = enableContact (scratch_option d) ∧
                binaryCheck o' = binaryCheck (scratch_option d) ∧
                maxNumContacts o' = maxNumContacts (scratch_option d)) ∧
  (∀ group, is_Some (state_of (collide group opt d))) ∧
  (∀ group1 group2, is_Some (state_of (collide2 group1 group2 opt d))) ∧
  (∀ rs d', Forall (λ r, overwrites_scratch_filter r = false) rs →
            run rs d = Ok tt d' →
            mDummyCollisionOption d' = mDummyCollisionOption d).
Proof.
  intros Hd. apply wf_reachable in Hd.
  destruct (wf_scratch_option d Hd) as (He & Hc & Hn). split_and!.
  - intros d' [[group H]|(group1 & group2 & H)].
    + rewrite collide_outcome in H by done. cbn in H. injection H as <-.
      cbn. unfold scratch_option_after. destruct (binaryCheck opt); [done|].
      exists (forced_binary opt). by rewrite He, Hc, Hn.
    + rewrite collide2_outcome in H by done. cbn in H. injection H as <-.
      cbn. unfold scratch_option_after. destruct (binaryCheck opt); [done|].
      exists (forced_binary opt). by rewrite He, Hc, Hn.
  - intros group. by rewrite collide_outcome.
  - intros group1 group2. by rewrite collide2_outcome.
  - intros rs d'. by apply run_keeps_scratch_option.
Qed.

End ConvenienceOverloads.

(** * The collision-object managers *)

Lemma policy_shared d :
  policy d = Shared → ∃ m, mCollisionObjectManager d = Some (Sharable m).
Proof.
  unfold policy. destruct (mCollisionObjectManager d) as [[|m]|]; eauto; done.
Qed.

Lemma exclusive_claim_outcome sf d :
  policy d = Exclusive →
  claimCollisionObject sf d =
  Ok (Some (next_object d))
     (mkCollisionDetector (Some Unsharable)
        (mDummyCollisionOption d) (mDummyCollisionResult d)
        (<[next_object d := mkObjectCell sf 1 Exclusive]> (heap d))
        (S (next_object d)) (trace d ++ [EvCreate sf (next_object d)])).
Proof.
  unfold policy. destruct (mCollisionObjectManager d) as [[|m]|] eqn:Hm; [| done |].
  - intros _. rewrite (claim_with_manager sf d _ Hm). cbn.
    by rewrite unsharable_claim_outcome, Hm.
  - intros _. by rewrite (claim_without_manager sf d Hm), unsharable_claim_outcome.
Qed.

Lemma shared_claim_live d m o c :
  wf d →
  mCollisionObjectManager d = Some (Sharable m) →
  heap d !! o = Some c →
  claimCollisionObject (getShapeFrame c) d =
  Ok (Some o) (set_heap (<[o := set_use_count (S (use_count c)) c]> (heap d)) d).
Proof.
  intros Hwf Hm Ho. rewrite (claim_with_manager _ d _ Hm). cbn.
  apply (sharable_claim_hit _ d m o c); [done| |done|].
  - by apply (wf_live_map d Hwf).
  - by apply (wf_owned d Hwf o).
Qed.

(** A claim returns an owning reference to a live object for the shape
    frame asked for. *)
Lemma claim_returns_live sf d p d' :
  wf d →
  claimCollisionObject sf d = Ok p d' →
  ∃ o c, p = Some o ∧ heap d' !! o = Some c ∧ getShapeFrame c = sf ∧
         o < next_object d'.
Proof.
  intros Hwf. destruct (policy d) eqn:Hp.
  - rewrite exclusive_claim_outcome by done. intros [= <- <-].
    eexists _, _. split; [done|]. cbn. rewrite lookup_insert_eq.
    split_and!; [done..|lia].
  - destruct (policy_shared d Hp) as [m Hm].
    rewrite (claim_with_manager sf d _ Hm). cbn.
    destruct (m !! sf) as [o|] eqn:Hsf.
    + destruct (wf_map_live d Hwf m sf o Hm Hsf) as (c & Hc & Hf).
      pose proof (wf_owned d Hwf o c Hc) as Hpos.
      rewrite (sharable_claim_hit sf d m o c Hm Hsf Hc Hpos).
      intros [= <- <-]. eexists _, _. split; [done|]. cbn.
      rewrite lookup_insert_eq. split_and!; [done..|].
      by apply (wf_fresh d Hwf o c).
    + rewrite (sharable_claim_miss sf d m Hm Hsf). intros [= <- <-].
      eexists _, _. split; [done|]. cbn. rewrite lookup_insert_eq.
      split_and!; [done..|lia].
Qed.

Section Managers.
Context `{Impl : CollisionDetectorImpl}.

(** C3: under the shared policy, on every reachable detector, a claim
    for the shape frame of a live collision object returns a further
    owning reference to that very object: its use count goes up by
    one; nothing is constructed, the store has the same objects and no
    call leaves the detector.  So of two claims for one shape frame,
    the later one returns the object of the earlier one whenever that
    object is still alive. *)
Theorem shared_claim_same_object d h :
  reachable d →
  policy d = Shared →
  (∀ o c, heap d !! o = Some c → getShapeFrame c = h →
     claimCollisionObject h d =
     Ok (Some o)
        (mkCollisionDetector (mCollisionObjectManager d)
           (mDummyCollisionOption d) (mDummyCollisionResult d)
           (<[o := mkObjectCell h (S (use_count c)) Shared]> (heap d))
           (next_object d) (trace d))) ∧
  (∀ p d1 d2, claimCollisionObject h d = Ok p d1 → rtc step d1 d2 →
     ∃ o, p = Some o ∧
          (is_Some (heap d2 !! o) →
           ∃ d3, claimCollisionObject h d2 = Ok (Some o) d3 ∧
                 next_object d3 = next_object d2 ∧
                 trace d3 = trace d2 ∧
                 dom (heap d3) = dom (heap d2))).
Proof.
  intros Hd Hp. pose proof (wf_reachable d Hd) as Hwf. split.
  - intros o c Ho <-. destruct (policy_shared d Hp) as [m Hm].
    rewrite (shared_claim_live d m o c Hwf Hm Ho).
    pose proof (wf_deleter d Hwf o c Ho) as Hdel. rewrite Hm in Hdel.
    injection Hdel as Hdel. unfold set_heap, set_use_count.
    by rewrite <- Hdel.
  - intros p d1 d2 Hc1 Hs.
    destruct (claim_returns_live h d p d1 Hwf Hc1) as (o & c1 & -> & Ho1 & Hf1 & Hlt).
    exists o. split; [done|]. intros [c2 Ho2].
    pose proof (wf_claim h d _ d1 Hwf Hc1) as Hwf1.
    pose proof (wf_steps d1 d2 Hwf1 Hs) as Hwf2.
    destruct (steps_evolves d1 d2 Hwf1 Hs) as (_ & Hp2 & Hback).
    destruct (claim_evolves h d _ d1 Hwf Hc1) as (_ & Hp1 & _).
    destruct (Hback o c2 Hlt Ho2) as (c1' & Ho1' & Hf2).
    assert (getShapeFrame c2 = h) as Hf by congruence.
    assert (policy d2 = Shared) as Hpd2 by congruence.
    destruct (policy_shared d2 Hpd2) as [m2 Hm2].
    eexists. split.
    + rewrite <- Hf. by apply (shared_claim_live d2 m2 o c2).
    + cbn. split_and!; [done..|]. by apply dom_insert_lookup_L.
Qed.

(** C4: under the exclusive policy, on every reachable detector, a
    claim constructs an object that was not in the store, returns the
    first owning reference to it and leaves the manager without any
    map; and the objects returned by two claims, whatever the shape
    frames and whatever happens in between, are distinct. *)
Theorem exclusive_claim_new_object d h :
  reachable d →
  policy d = Exclusive →
  (heap d !! next_object d = None ∧
   claimCollisionObject h d =
     Ok (Some (next_object d))
        (mkCollisionDetector (Some Unsharable)
           (mDummyCollisionOption d) (mDummyCollisionResult d)
           (<[next_object d := mkObjectCell h 1 Exclusive]> (heap d))
           (S (next_object d)) (trace d ++ [EvCreate h (next_object d)]))) ∧
  (∀ p1 d1 d2 h2 p2 d3,
     claimCollisionObject h d = Ok p1 d1 → rtc step d1 d2 →
     claimCollisionObject h2 d2 = Ok p2 d3 →
     mCollisionObjectManager d3 = Some Unsharable ∧
     ∃ o1 o2, p1 = Some o1 ∧ p2 = Some o2 ∧ o1 ≠ o2).
Proof.
  intros Hd Hp. pose proof (wf_reachable d Hd) as Hwf. split.
  - split; [by apply wf_next_absent|by apply exclusive_claim_outcome].
  - intros p1 d1 d2 h2 p2 d3 Hc1 Hs Hc2.
    pose proof (wf_claim h d _ d1 Hwf Hc1) as Hwf1.
    destruct (steps_evolves d1 d2 Hwf1 Hs) as (Hn & Hp2 & _).
    destruct (claim_evolves h d _ d1 Hwf Hc1) as (_ & Hp1 & _).
    rewrite exclusive_claim_outcome in Hc1 by done.
    injection Hc1 as <- <-. cbn in Hn.
    rewrite exclusive_claim_outcome in Hc2 by congruence.
    injection Hc2 as <- <-. split; [done|].
    eexists _, _. split_and!; [done..|lia].
Qed.

(** C5: under the shared policy, on every reachable detector,
    releasing the last owning reference to the object for a shape
    frame leaves no entry for that shape frame in the map and removes
    the object from the store; the next claim for the shape frame then
    takes the path of a request on a map without an entry: it
    constructs an object that is not the destroyed one, stores it in
    the map and returns the first owning reference to it, just as the
    very first claim on a new detector does. *)
Theorem shared_release_leaves_no_entry d h o c :
  reachable d →
  policy d = Shared →
  heap d !! o = Some c →
  getShapeFrame c = h →
  use_count c = 1 →
  ∃ d1 m1,
    release (Some o) d = Ok tt d1 ∧
    mCollisionObjectManager d1 = Some (Sharable m1) ∧
    m1 !! h = None ∧
    heap d1 !! o = None ∧
    next_object d1 ≠ o ∧
    heap d1 !! next_object d1 = None ∧
    claimCollisionObject h d1 =
      Ok (Some (next_object d1))
         (mkCollisionDetector
            (Some (Sharable (<[h := next_object d1]> m1)))
            (mDummyCollisionOption d1) (mDummyCollisionResult d1)
            (<[next_object d1 := mkObjectCell h 1 Shared]> (heap d1))
            (S (next_object d1))
            (trace d1 ++ [EvCreate h (next_object d1)])) ∧
    claimCollisionObject h (newCollisionDetector (Some Shared)) =
      Ok (Some 0)
         (mkCollisionDetector (Some (Sharable (<[h := 0]> ∅))) None None
            (<[0 := mkObjectCell h 1 Shared]> ∅) 1 ([] ++ [EvCreate h 0])).
Proof.
  intros Hd Hp Ho <- Hc. pose proof (wf_reachable d Hd) as Hwf.
  destruct (policy_shared d Hp) as [m Hm].
  pose proof (wf_deleter d Hwf o c Ho) as Hdel. rewrite Hm in Hdel.
  injection Hdel as Hdel.
  pose proof (release_last_shared o c m d Ho Hc (eq_sym Hdel) Hm) as Hrel.
  pose proof (wf_release o d _ Hwf Hrel) as Hwf1.
  eexists _, _. split; [exact Hrel|]. cbn. split_and!.
  - done.
  - apply lookup_delete_eq.
  - apply lookup_delete_eq.
  - apply (wf_fresh d Hwf) in Ho. lia.
  - apply (wf_next_absent _ Hwf1).
  - rewrite (claim_with_manager _ _ (Sharable (delete (getShapeFrame c) m)))
      by done.
    cbn. by rewrite (sharable_claim_miss _ _ (delete (getShapeFrame c) m))
      by (done || apply lookup_delete_eq).
  - rewrite (claim_with_manager _ _ (Sharable ∅)) by done.
    cbn. by rewrite (sharable_claim_miss _ _ ∅) by done.
Qed.

End Managers.

(** C6: when the last owning reference to a collision object of the
    sharable manager is released, the deleter of the manager runs, and
    it does three things in this order: it notifies the detector, while
    the object and its map entry are still there; it erases the map
    entry under the shape frame of the object, the object still being
    there; it deletes the object.  The log of the detector grows by
    exactly these three calls. *)
Theorem shared_deleter_order d o c m :
  heap d !! o = Some c →
  use_count c = 1 →
  deleter c = Shared →
  mCollisionObjectManager d = Some (Sharable m) →
  let key := getShapeFrame c in
  let d0 := set_heap (<[o := set_use_count 0 c]> (heap d)) d in
  let d1 := log (EvNotify o) d0 in
  let d2 := log (EvErase key) (set_manager (Some (Sharable (delete key m))) d1) in
  let d3 := log (EvDelete o) (set_heap (delete o (heap d2)) d2) in
  release (Some o) d =
    ManagerForSharableCollisionObjects.CollisionObjectDeleter o d0 ∧
  notifyCollisionObjectDestroying o d0 = Ok tt d1 ∧
  object_getShapeFrame o d1 = Ok key d1 ∧
  ManagerForSharableCollisionObjects.map_erase key d1 = Ok tt d2 ∧
  is_Some (heap d2 !! o) ∧
  delete_object o d2 = Ok tt d3 ∧
  release (Some o) d = Ok tt d3 ∧
  trace d3 = trace d ++ [EvNotify o; EvErase key; EvDelete o] ∧
  mCollisionObjectManager d3 = Some (Sharable (delete key m)) ∧
  heap d3 = delete o (heap d).
Proof.
  intros Ho Hc Hdel Hm. cbv zeta. split_and!.
  - unfold release. by rewrite Ho, Hc, Hdel.
  - done.
  - unfold object_getShapeFrame. cbn. by rewrite lookup_insert_eq.
  - unfold ManagerForSharableCollisionObjects.map_erase,
      ManagerForSharableCollisionObjects.read_map,
      ManagerForSharableCollisionObjects.write_map.
    msimpl. by rewrite Hm.
  - cbn. rewrite lookup_insert_eq. eauto.
  - done.
  - rewrite (release_last_shared o c m d Ho Hc Hdel Hm).
    unfold log, set_heap, set_manager; cbn.
    by rewrite <- !app_assoc, delete_insert_eq.
  - cbn. by rewrite <- !app_assoc.
  - done.
  - cbn. by rewrite delete_insert_eq.
Qed.

(** C7: [CollisionDetector::claimCollisionObject] hands the request to
    the manager of the detector; when there is none yet, it first
    installs a newly constructed manager of the unsharable kind and
    hands the request to that one.  On a detector as the base
    constructor leaves it, the claim succeeds and leaves an unsharable
    manager. *)
Theorem base_claim_delegates shapeFrame d :
  let mgr := default Unsharable (mCollisionObjectManager d) in
  claimCollisionObject shapeFrame d =
    manager_claimCollisionObject mgr shapeFrame (set_manager (Some mgr) d) ∧
  mCollisionObjectManager base_detector = None ∧
  ∃ p d', claimCollisionObject shapeFrame base_detector = Ok p d' ∧
          is_Some p ∧
          mCollisionObjectManager d' = Some Unsharable.
Proof.
  cbv zeta. split_and!.
  - destruct (mCollisionObjectManager d) as [m|] eqn:Hm; cbn.
    + rewrite (claim_with_manager shapeFrame d m Hm).
      replace (set_manager (Some m) d) with d; [done|].
      destruct d; cbn in *. by subst.
    + by rewrite (claim_without_manager shapeFrame d Hm).
  - done.
  - rewrite exclusive_claim_outcome by done. eexists _, _. eauto.
Qed.

Section DeadEntries.
Context `{Impl : CollisionDetectorImpl}.

(** C8: under the shared policy, in every reachable detector, the weak
    pointer of every map entry is alive: it locks to its object, and
    the claim for its shape frame passes the assertion and returns
    that object.  A detector whose map had an entry with a dead weak
    pointer would make the claim fail its assertion. *)
Theorem shared_lookup_finds_live d m sf o :
  reachable d →
  mCollisionObjectManager d = Some (Sharable m) →
  m !! sf = Some o →
  expired o d = false ∧
  (∃ d', lock o d = Ok (Some o) d') ∧
  (∃ d', claimCollisionObject sf d = Ok (Some o) d') ∧
  (∀ d_dead, mCollisionObjectManager d_dead = Some (Sharable m) →
             expired o d_dead = true →
             claimCollisionObject sf d_dead = Err AssertionFailed).
Proof.
  intros Hd Hm Hsf. pose proof (wf_reachable d Hd) as Hwf.
  destruct (wf_map_live d Hwf m sf o Hm Hsf) as (c & Hc & Hf).
  pose proof (wf_owned d Hwf o c Hc) as Hpos.
  assert (Nat.eqb (use_count c) 0 = false) as Hnz
    by (apply Nat.eqb_neq; lia).
  split_and!.
  - unfold expired. by rewrite Hc.
  - unfold lock. rewrite Hc, Hnz. eauto.
  - rewrite <- Hf. rewrite (shared_claim_live d m o c Hwf Hm Hc). eauto.
  - intros d_dead Hm' Hdead. rewrite (claim_with_manager sf d_dead _ Hm').
    cbn. by apply (sharable_claim_dead sf d_dead m o).
Qed.

End DeadEntries.

(** * The properties on concrete detectors *)

(** The concrete detectors are reached from new ones. *)
Lemma shared_after_claim_reachable :
  reachable (Impl := PairwiseDetector.impl) shared_after_claim.
Proof. apply state_after_reachable. vm_compute. by eexists. Defined.

Lemma exclusive_after_claim_reachable :
  reachable (Impl := PairwiseDetector.impl) exclusive_after_claim.
Proof. apply state_after_reachable. vm_compute. by eexists. Defined.

Lemma after_filtered_query_reachable :
  reachable (Impl := PairwiseDetector.impl) after_filtered_query.
Proof. apply state_after_reachable. vm_compute. by eexists. Defined.

Lemma base_detector_reachable :
  reachable (Impl := PairwiseDetector.impl) base_detector.
Proof. exists None. apply rtc_refl. Defined.

(** C1, the claim as worded fails: on a new detector of the pairwise
    implementation, for a group of three objects and an option asking
    for contacts, up to 100 of them, without [binaryCheck], the
    convenience call hands the forced binary check to the core overload
    and records one contact, where the core call with the option of the
    caller hands over that option and records three; the two calls do
    not agree. *)
Lemma collide_not_explicit_result_counterexample :
  binaryCheck full_option = false ∧
  (trace <$>
     state_of (collide (Impl := PairwiseDetector.impl)
                 [0; 1; 2] full_option base_detector))
    = Some [EvCollide [0; 1; 2] (mkCollisionOption false true 1 None) []] ∧
  (trace <$>
     state_of (collide_explicit_result (Impl := PairwiseDetector.impl)
                 [0; 1; 2] full_option base_detector))
    = Some [EvCollide [0; 1; 2] (mkCollisionOption true false 100 None) []] ∧
  (mDummyCollisionResult <$>
     state_of (collide (Impl := PairwiseDetector.impl)
                 [0; 1; 2] full_option base_detector))
    = Some (Some [(0, 1)]) ∧
  (mDummyCollisionResult <$>
     state_of (collide_explicit_result (Impl := PairwiseDetector.impl)
                 [0; 1; 2] full_option base_detector))
    = Some (Some [(0, 1); (0, 2); (1, 2)]) ∧
  collide (Impl := PairwiseDetector.impl) [0; 1; 2] full_option base_detector
    ≠ collide_explicit_result (Impl := PairwiseDetector.impl)
        [0; 1; 2] full_option base_detector.
Proof.
  split_and!; [reflexivity..|].
  intros H. apply (f_equal state_of) in H.
  apply (f_equal (fmap mDummyCollisionResult)) in H.
  vm_compute in H. discriminate H.
Qed.

(** C1 as amended, on a new detector and a group of three objects. *)
Lemma collide_not_binary_is_forced_binary_witness :
  collide (Impl := PairwiseDetector.impl) [0; 1; 2] full_option base_detector
    = collide_forced_binary (Impl := PairwiseDetector.impl)
        [0; 1; 2] full_option base_detector ∧
  ∀ opt2, binaryCheck opt2 = false →
          collisionFilter opt2 = collisionFilter full_option →
          collide (Impl := PairwiseDetector.impl) [0; 1; 2] opt2 base_detector
          = collide (Impl := PairwiseDetector.impl)
              [0; 1; 2] full_option base_detector.
Proof.
  apply (collide_not_binary_is_forced_binary
           (Impl := PairwiseDetector.impl) base_detector [0; 1; 2] full_option).
  - exact base_detector_reachable.
  - reflexivity.
Defined.

(** C2 after three claims and one filtered query: both overloads answer
    that something touches. *)
Lemma convenience_collide_delegates_witness :
  value_of (collide (Impl := PairwiseDetector.impl)
              [0; 1; 2] full_option after_filtered_query) = Some true ∧
  value_of (collide2 (Impl := PairwiseDetector.impl)
              [0] [1; 2] full_option after_filtered_query) = Some true.
Proof.
  destruct (convenience_collide_delegates (Impl := PairwiseDetector.impl)
              after_filtered_query [0; 1; 2] [0] [1; 2] full_option
              after_filtered_query_reachable) as [H1 H2].
  rewrite H1, H2. split; reflexivity.
Defined.

(** C9 after a query that stored the filter 1 in the scratch option. *)
Lemma dummy_option_is_binary_witness :
  mDummyCollisionOption after_filtered_query
    = Some (mkCollisionOption false true 1 (Some 1)) ∧
  (enableContact (mkCollisionOption false true 1 (Some 1)) = false ∧
   binaryCheck (mkCollisionOption false true 1 (Some 1)) = true ∧
   maxNumContacts (mkCollisionOption false true 1 (Some 1)) = 1%N) ∧
  is_Some (value_of (collide (Impl := PairwiseDetector.impl)
                       [0; 1; 2] full_option after_filtered_query)).
Proof.
  destruct (dummy_option_is_binary (Impl := PairwiseDetector.impl)
              after_filtered_query after_filtered_query_reachable)
    as (_ & Hfields & _ & Hcollide & _).
  split; [reflexivity|split].
  - apply Hfields. reflexivity.
  - apply Hcollide.
Defined.

(** C10 on the same detector. *)
Lemma convenience_collide_scratch_option_witness :
  is_Some (state_of (collide (Impl := PairwiseDetector.impl)
                       [0; 1; 2] full_option after_filtered_query)) ∧
  is_Some (state_of (collide2 (Impl := PairwiseDetector.impl)
                       [0] [1; 2] full_option after_filtered_query)).
Proof.
  destruct (convenience_collide_scratch_option (Impl := PairwiseDetector.impl)
              after_filtered_query full_option after_filtered_query_reachable)
    as (_ & Hone & Htwo & _).
  split; [apply Hone|apply Htwo].
Defined.

(** C3 on a sharing detector that holds object 0 for shape frame 7. *)
Lemma shared_claim_same_object_witness :
  claimCollisionObject 7 shared_after_claim =
  Ok (Some 0)
     (mkCollisionDetector (mCollisionObjectManager shared_after_claim)
        (mDummyCollisionOption shared_after_claim)
        (mDummyCollisionResult shared_after_claim)
        (<[0 := mkObjectCell 7 2 Shared]> (heap shared_after_claim))
        (next_object shared_after_claim) (trace shared_after_claim)).
Proof.
  apply (proj1 (shared_claim_same_object (Impl := PairwiseDetector.impl)
                  shared_after_claim 7 shared_after_claim_reachable eq_refl)
           0 (mkObjectCell 7 1 Shared)); reflexivity.
Defined.

(** C4 on a detector of the base class after one claim. *)
Lemma exclusive_claim_new_object_witness :
  heap exclusive_after_claim !! next_object exclusive_after_claim = None ∧
  claimCollisionObject 7 exclusive_after_claim =
    Ok (Some (next_object exclusive_after_claim))
       (mkCollisionDetector (Some Unsharable)
          (mDummyCollisionOption exclusive_after_claim)
          (mDummyCollisionResult exclusive_after_claim)
          (<[next_object exclusive_after_claim := mkObjectCell 7 1 Exclusive]>
             (heap exclusive_after_claim))
          (S (next_object exclusive_after_claim))
          (trace exclusive_after_claim
             ++ [EvCreate 7 (next_object exclusive_after_claim)])).
Proof.
  exact (proj1 (exclusive_claim_new_object (Impl := PairwiseDetector.impl)
                  exclusive_after_claim 7
                  exclusive_after_claim_reachable eq_refl)).
Defined.

(** C5: object 0 is released, the next claim for its shape frame
    returns object 1. *)
Lemma shared_release_leaves_no_entry_witness :
  ∃ d1, release (Some 0) shared_after_claim = Ok tt d1 ∧
        heap d1 !! 0 = None ∧
        value_of (claimCollisionObject 7 d1) = Some (Some 1).
Proof.
  destruct (shared_release_leaves_no_entry (Impl := PairwiseDetector.impl)
              shared_after_claim 7 0 (mkObjectCell 7 1 Shared)
              shared_after_claim_reachable eq_refl eq_refl eq_refl eq_refl)
    as (d1 & m1 & Hrel & _ & _ & Hgone & _ & _ & Hclaim & _).
  exists d1. split_and!; [done..|].
  rewrite Hclaim. vm_compute in Hrel. injection Hrel as <-. reflexivity.
Defined.

(** C6: the log after the only reference to object 0 is released. *)
Lemma shared_deleter_order_witness :
  release (Some 0) shared_after_claim =
  Ok tt (mkCollisionDetector (Some (Sharable (delete 7 {[7 := 0]})))
           None None (delete 0 (heap shared_after_claim)) 1
           [EvCreate 7 0; EvNotify 0; EvErase 7; EvDelete 0]).
Proof.
  apply (shared_deleter_order shared_after_claim 0
           (mkObjectCell 7 1 Shared) {[7 := 0]}); reflexivity.
Defined.

(** C8 on the map entry for shape frame 7. *)
Lemma shared_lookup_finds_live_witness :
  expired 0 shared_after_claim = false ∧
  (∃ d', lock 0 shared_after_claim = Ok (Some 0) d') ∧
  (∃ d', claimCollisionObject 7 shared_after_claim = Ok (Some 0) d') ∧
  (∀ d_dead, mCollisionObjectManager d_dead = Some (Sharable {[7 := 0]}) →
             expired 0 d_dead = true →
             claimCollisionObject 7 d_dead = Err AssertionFailed).
Proof.
  apply (shared_lookup_finds_live (Impl := PairwiseDetector.impl)
           shared_after_claim {[7 := 0]} 7 0 shared_after_claim_reachable);
    reflexivity.
Defined.

(** * Further properties of the managers and of the scratch members *)

Section Transitions.
Context `{Impl : CollisionDetectorImpl}.

Lemma claim_transition sf d p d' :
  wf d → claimCollisionObject sf d = Ok p d' → transition d d'.
Proof.
  intros Hwf. destruct (policy d) eqn:Hp.
  - rewrite exclusive_claim_outcome by done. intros [= _ <-].
    by apply transition_construct_exclusive.
  - destruct (policy_shared d Hp) as [m Hm].
    rewrite (claim_with_manager sf d _ Hm). cbn.
    destruct (m !! sf) as [o|] eqn:Hsf.
    + destruct (wf_map_live d Hwf m sf o Hm Hsf) as (c & Hc & _).
      pose proof (wf_owned d Hwf o c Hc) as Hpos.
      rewrite (sharable_claim_hit sf d m o c Hm Hsf Hc Hpos).
      intros [= _ <-]. by apply (transition_share d o c m).
    + rewrite (sharable_claim_miss sf d m Hm Hsf). intros [= _ <-].
      by apply transition_construct_shared.
Qed.

Lemma release_transition o d d' :
  wf d → release (Some o) d = Ok tt d' → transition d d'.
Proof.
  intros Hwf. destruct (heap d !! o) as [c|] eqn:Ho.
  - pose proof (wf_owned d Hwf o c Ho) as Hpos.
    pose proof (wf_deleter d Hwf o c Ho) as Hdel.
    destruct (use_count c) as [|[|n]] eqn:Hc; [lia| |].
    + destruct (deleter c) eqn:Hk.
      * rewrite (release_last_exclusive o c d Ho Hc Hk). intros [= <-].
        by apply (transition_destroy_exclusive d o c).
      * destruct (mCollisionObjectManager d) as [[|m]|] eqn:Hm;
          cbn in Hdel; [congruence| |discriminate].
        rewrite (release_last_shared o c m d Ho Hc Hk Hm). intros [= <-].
        by apply (transition_destroy_shared d o c m).
    + rewrite (release_not_last o c n d Ho Hc). intros [= <-].
      by apply (transition_drop d o c n).
  - rewrite (release_absent o d Ho). intros [= <-]. apply transition_none.
Qed.

Lemma step_transition d d' : wf d → step d d' → transition d d'.
Proof.
  intros Hwf [r Hr]. destruct r as [sf|o|g opt|g1 g2 opt]; cbn in Hr.
  - unfold mbind, M_bind in Hr.
    destruct (claimCollisionObject sf d) as [p d1|] eqn:E; [|done].
    cbn in Hr. injection Hr as <-. by eapply claim_transition.
  - by eapply release_transition.
  - unfold mbind, M_bind in Hr. rewrite collide_outcome in Hr by done.
    cbn in Hr. injection Hr as <-. by apply transition_query.
  - unfold mbind, M_bind in Hr. rewrite collide2_outcome in Hr by done.
    cbn in Hr. injection Hr as <-. by apply transition_query.
Qed.

(** An invariant of detectors that holds on new ones and is kept by
    every transition of a well-formed detector holds on every reachable
    one. *)
Lemma reachable_ind (P : CollisionDetector → Prop) :
  (∀ p, P (newCollisionDetector p)) →
  (∀ d d', wf d → P d → transition d d' → P d') →
  ∀ d, reachable d → P d.
Proof.
  intros Hnew Hstep d [p Hs].
  pose proof (wf_new p) as Hwf. pose proof (Hnew p) as HP.
  induction Hs as [|d1 d2 d3 H12 H23 IH]; [done|].
  apply IH.
  - by eapply wf_step.
  - eapply Hstep; [done..|]. by apply step_transition.
Qed.

End Transitions.

(** X1: when the only owning reference to a collision object of the
    unsharable manager is released, the deleter of that manager runs:
    it notifies the detector while the object is still there, then it
    deletes the object.  The log grows by exactly these two calls; the
    manager is not touched. *)
Theorem exclusive_deleter_order d o c :
  heap d !! o = Some c →
  use_count c = 1 →
  deleter c = Exclusive →
  let d0 := set_heap (<[o := set_use_count 0 c]> (heap d)) d in
  let d1 := log (EvNotify o) d0 in
  let d2 := log (EvDelete o) (set_heap (delete o (heap d1)) d1) in
  release (Some o) d =
    ManagerForUnsharableCollisionObjects.CollisionObjectDeleter o d0 ∧
  notifyCollisionObjectDestroying o d0 = Ok tt d1 ∧
  is_Some (heap d1 !! o) ∧
  delete_object o d1 = Ok tt d2 ∧
  release (Some o) d = Ok tt d2 ∧
  trace d2 = trace d ++ [EvNotify o; EvDelete o] ∧
  mCollisionObjectManager d2 = mCollisionObjectManager d ∧
  heap d2 = delete o (heap d).
Proof.
  intros Ho Hc Hdel. cbv zeta. split_and!.
  - unfold release. by rewrite Ho, Hc, Hdel.
  - done.
  - cbn. rewrite lookup_insert_eq. eauto.
  - done.
  - rewrite (release_last_exclusive o c d Ho Hc Hdel).
    unfold log, set_heap; cbn. by rewrite <- !app_assoc, delete_insert_eq.
  - cbn. by rewrite <- !app_assoc.
  - done.
  - cbn. by rewrite delete_insert_eq.
Qed.

(** The only reference to object 0 of a detector of the base class. *)
Lemma exclusive_deleter_order_witness :
  release (Some 0) exclusive_after_claim =
  Ok tt (mkCollisionDetector (Some Unsharable) None None
           (delete 0 (heap exclusive_after_claim)) 1
           [EvCreate 7 0; EvNotify 0; EvDelete 0]).
Proof.
  apply (exclusive_deleter_order exclusive_after_claim 0
           (mkObjectCell 7 1 Exclusive)); reflexivity.
Defined.

Section SharedIndex.
Context `{Impl : CollisionDetectorImpl}.

(** X2: under the shared policy, in every reachable detector, the map
    of the manager is exactly the index of the live collision objects
    by their shape frames: it has the entry [sf ↦ o] if and only if [o]
    is a live object for [sf].  So no two live objects are for the same
    shape frame. *)
Theorem shared_map_indexes_live_objects d m :
  reachable d →
  mCollisionObjectManager d = Some (Sharable m) →
  (∀ sf o, m !! sf = Some o ↔
           ∃ c, heap d !! o = Some c ∧ getShapeFrame c = sf) ∧
  (∀ o1 o2 c1 c2, heap d !! o1 = Some c1 → heap d !! o2 = Some c2 →
                  getShapeFrame c1 = getShapeFrame c2 → o1 = o2).
Proof.
  intros Hd Hm. pose proof (wf_reachable d Hd) as Hwf. split.
  - intros sf o. split.
    + by apply (wf_map_live d Hwf).
    + intros (c & Hc & <-). by apply (wf_live_map d Hwf).
  - intros o1 o2 c1 c2 H1 H2 Hf.
    pose proof (wf_live_map d Hwf m o1 c1 Hm H1) as E1.
    pose proof (wf_live_map d Hwf m o2 c2 Hm H2) as E2.
    rewrite Hf in E1. congruence.
Qed.

(** X3: under the shared policy, in every reachable detector, the
    destructor of the manager passes its assertion when no collision
    object is alive, and fails it when one still is. *)
Theorem sharable_destructor_needs_no_live_object d m :
  reachable d →
  mCollisionObjectManager d = Some (Sharable m) →
  (heap d = ∅ →
     ManagerForSharableCollisionObjects.destructor d = Ok tt d) ∧
  (heap d ≠ ∅ →
     ManagerForSharableCollisionObjects.destructor d = Err AssertionFailed).
Proof.
  intros Hd Hm. pose proof (wf_reachable d Hd) as Hwf.
  unfold ManagerForSharableCollisionObjects.destructor,
    ManagerForSharableCollisionObjects.read_map.
  unfold mbind, M_bind, assertion. rewrite Hm. split.
  - intros Hh. rewrite bool_decide_eq_true_2; [done|].
    apply map_empty. intros sf. destruct (m !! sf) as [o|] eqn:Hsf; [|done].
    destruct (wf_map_live d Hwf m sf o Hm Hsf) as (c & Hc & _).
    rewrite Hh in Hc. by rewrite lookup_empty in Hc.
  - intros Hh. rewrite bool_decide_eq_false_2; [done|].
    intros ->. apply Hh. apply map_empty. intros o.
    destruct (heap d !! o) as [c|] eqn:Ho; [|done].
    pose proof (wf_live_map d Hwf ∅ o c Hm Ho) as E.
    by rewrite lookup_empty in E.
Qed.

(** X4: under the shared policy, on every reachable detector, claiming
    the object of a shape frame that has a live object and releasing
    the reference obtained leaves the detector exactly as it was. *)
Theorem shared_claim_release_round_trip d h o c :
  reachable d →
  policy d = Shared →
  heap d !! o = Some c →
  getShapeFrame c = h →
  (p ← claimCollisionObject h; release p) d = Ok tt d.
Proof.
  intros Hd Hp Ho <-. pose proof (wf_reachable d Hd) as Hwf.
  destruct (policy_shared d Hp) as [m Hm].
  unfold mbind, M_bind. rewrite (shared_claim_live d m o c Hwf Hm Ho).
  pose proof (wf_owned d Hwf o c Ho) as Hpos.
  destruct (use_count c) as [|n] eqn:Hc; [lia|].
  rewrite (release_not_last o (set_use_count (S (S n)) c) n).
  - f_equal. destruct d as [mg op rs hp nx tr]. unfold set_heap; cbn in *.
    f_equal. rewrite insert_insert_eq. apply insert_id.
    rewrite Ho. f_equal. destruct c; cbn in *. by subst.
  - cbn. by rewrite lookup_insert_eq.
  - done.
Qed.

End SharedIndex.

(** The map of a sharing detector that holds object 0 for shape frame
    7 has that one entry. *)
Lemma shared_map_indexes_live_objects_witness :
  (∀ sf o, ({[7 := 0]} : gmap nat nat) !! sf = Some o ↔
           ∃ c, heap shared_after_claim !! o = Some c ∧
                getShapeFrame c = sf) ∧
  (∀ o1 o2 c1 c2,
     heap shared_after_claim !! o1 = Some c1 →
     heap shared_after_claim !! o2 = Some c2 →
     getShapeFrame c1 = getShapeFrame c2 → o1 = o2).
Proof.
  apply (shared_map_indexes_live_objects (Impl := PairwiseDetector.impl)
           shared_after_claim {[7 := 0]} shared_after_claim_reachable).
  reflexivity.
Defined.

(** With object 0 alive the destructor of the manager fails its
    assertion. *)
Lemma sharable_destructor_needs_no_live_object_witness :
  ManagerForSharableCollisionObjects.destructor shared_after_claim
  = Err AssertionFailed.
Proof.
  apply (sharable_destructor_needs_no_live_object
           (Impl := PairwiseDetector.impl)
           shared_after_claim {[7 := 0]} shared_after_claim_reachable eq_refl).
  intros H. apply (f_equal (λ hp : gmap nat ObjectCell, hp !! 0)) in H.
  vm_compute in H. discriminate H.
Defined.

(** Claiming shape frame 7 again and releasing the reference. *)
Lemma shared_claim_release_round_trip_witness :
  (p ← claimCollisionObject 7; release p) shared_after_claim
  = Ok tt shared_after_claim.
Proof.
  apply (shared_claim_release_round_trip (Impl := PairwiseDetector.impl)
           shared_after_claim 7 0 (mkObjectCell 7 1 Shared)
           shared_after_claim_reachable); reflexivity.
Defined.

Section Counting.
Context `{Impl : CollisionDetectorImpl}.

Lemma run_app rs1 rs2 d :
  run (rs1 ++ rs2) d = (run rs1;; run rs2) d.
Proof.
  revert d. induction rs1 as [|r rs1 IH]; intros d; cbn; [done|].
  unfold mbind, M_bind. destruct (handle r d) as [[] d1|]; [|done].
  apply IH.
Qed.

Lemma claims_add_owners d m h o k j :
  run (replicate j (Claim h)) (with_shared_object d m h o (S k)) =
  Ok tt (with_shared_object d m h o (j + S k)).
Proof.
  revert k. induction j as [|j IH]; intros k; [done|]. cbn [replicate run].
  unfold mbind, M_bind. cbn [handle]. unfold mbind, M_bind.
  rewrite (claim_with_manager h _ (Sharable (<[h := o]> m))) by done.
  cbn [manager_claimCollisionObject].
  rewrite (sharable_claim_hit h _ (<[h := o]> m) o (mkObjectCell h (S k) Shared));
    [|done|apply lookup_insert_eq|apply lookup_insert_eq|cbn; lia].
  cbn. unfold set_heap, set_use_count; cbn. rewrite insert_insert_eq.
  specialize (IH (S k)). unfold with_shared_object in IH.
  rewrite IH. by rewrite Nat.add_succ_r.
Qed.

Lemma releases_drop_owners d m h o k j :
  run (replicate j (Release o)) (with_shared_object d m h o (j + S k)) =
  Ok tt (with_shared_object d m h o (S k)).
Proof.
  induction j as [|j IH]; [done|]. cbn [replicate run].
  unfold mbind, M_bind. cbn [handle].
  rewrite (release_not_last o (mkObjectCell h (S j + S k) Shared) (j + k));
    [|apply lookup_insert_eq|cbn; lia].
  unfold set_heap, set_use_count; cbn. rewrite insert_insert_eq.
  unfold with_shared_object in IH.
  replace (S (j + k)) with (j + S k) by lia. apply IH.
Qed.

(** X5: under the shared policy, on a reachable detector without an
    object for the shape frame [h], [n + 1] claims for [h] construct one
    object and give it [n + 1] owners; releasing [n] of the references
    leaves the object in place with one owner; releasing all [n + 1]
    runs the deleter once and gives back the map and the store as they
    were before the first claim. *)
Theorem shared_claims_then_releases d m h n :
  reachable d →
  mCollisionObjectManager d = Some (Sharable m) →
  m !! h = None →
  let o := next_object d in
  run (replicate (S n) (Claim h)) d
    = Ok tt (with_shared_object d m h o (S n)) ∧
  run (replicate (S n) (Claim h) ++ replicate n (Release o)) d
    = Ok tt (with_shared_object d m h o 1) ∧
  run (replicate (S n) (Claim h) ++ replicate (S n) (Release o)) d
    = Ok tt (mkCollisionDetector (Some (Sharable m))
               (mDummyCollisionOption d) (mDummyCollisionResult d)
               (heap d) (S o)
               (trace d ++ [EvCreate h o; EvNotify o; EvErase h; EvDelete o])).
Proof.
  intros Hd Hm Hh. cbv zeta. pose proof (wf_reachable d Hd) as Hwf.
  assert (run (replicate (S n) (Claim h)) d
          = Ok tt (with_shared_object d m h (next_object d) (S n))) as Hclaims.
  { cbn [replicate run]. unfold mbind, M_bind. cbn [handle].
    unfold mbind, M_bind.
    rewrite (claim_with_manager h d _ Hm). cbn [manager_claimCollisionObject].
    rewrite (sharable_claim_miss h d m Hm Hh). cbn.
    pose proof (claims_add_owners d m h (next_object d) 0 n) as H.
    unfold with_shared_object in H. rewrite H.
    by replace (n + 1) with (S n) by lia. }
  assert (run (replicate (S n) (Claim h) ++ replicate n (Release (next_object d))) d
          = Ok tt (with_shared_object d m h (next_object d) 1)) as Hdrop.
  { rewrite run_app. unfold mbind, M_bind. rewrite Hclaims.
    replace (S n) with (n + 1) by lia. apply releases_drop_owners. }
  split_and!; [done..|].
  replace (replicate (S n) (Release (next_object d))) with
    (replicate n (Release (next_object d)) ++ [Release (next_object d)])
    by (by rewrite <- replicate_S_end).
  rewrite app_assoc, run_app. unfold mbind, M_bind. rewrite Hdrop.
  cbn [run]. unfold mbind, M_bind. cbn [handle].
  rewrite (release_last_shared (next_object d) (mkObjectCell h 1 Shared)
             (<[h := next_object d]> m));
    [|apply lookup_insert_eq|done..].
  cbn. rewrite !delete_insert_eq, <- app_assoc.
  rewrite (delete_id m h Hh), (delete_id (heap d) _ (wf_next_absent d Hwf)).
  done.
Qed.

End Counting.

(** Three claims for shape frame 8 on a detector that shares object 0
    for shape frame 7, then three releases of the object constructed. *)
Lemma shared_claims_then_releases_witness :
  run (Impl := PairwiseDetector.impl)
    (replicate 3 (Claim 8) ++ replicate 3 (Release 1)) shared_after_claim
  = Ok tt (mkCollisionDetector (Some (Sharable {[7 := 0]})) None None
             (heap shared_after_claim) 2
             [EvCreate 7 0; EvCreate 8 1; EvNotify 1; EvErase 8; EvDelete 1]).
Proof.
  apply (shared_claims_then_releases (Impl := PairwiseDetector.impl)
           shared_after_claim {[7 := 0]} 8 2 shared_after_claim_reachable);
    reflexivity.
Defined.

(** ** The log: constructions, notifications and deletions *)

Lemma created_app t1 t2 : created (t1 ++ t2) = created t1 ++ created t2.
Proof. apply omap_app. Qed.

Lemma deleted_app t1 t2 : deleted (t1 ++ t2) = deleted t1 ++ deleted t2.
Proof. apply omap_app. Qed.

Lemma created_query e : is_query e = true → created [e] = [].
Proof. by destruct e. Qed.

Lemma deleted_query e : is_query e = true → deleted [e] = [].
Proof. by destruct e. Qed.

Section Accounting.
Context `{Impl : CollisionDetectorImpl}.

Lemma log_accounting d :
  reachable d →
  created (trace d) = seq 0 (next_object d) ∧
  NoDup (deleted (trace d)) ∧
  (∀ o, o ∈ deleted (trace d) → o < next_object d) ∧
  (∀ o, is_Some (heap d !! o) ↔
        o < next_object d ∧ o ∉ deleted (trace d)).
Proof.
  revert d. apply reachable_ind.
  - intros p. cbn. split_and!; [done|constructor|by intros o ?%elem_of_nil|].
    intros o. rewrite lookup_empty. split; [by intros []|lia].
  - intros d d' Hwf (Hc & Hn & Hlt & Hlive) Ht.
    assert (∀ sf pol,
      created (trace d ++ [EvCreate sf (next_object d)])
        = seq 0 (S (next_object d)) ∧
      NoDup (deleted (trace d ++ [EvCreate sf (next_object d)])) ∧
      (∀ o, o ∈ deleted (trace d ++ [EvCreate sf (next_object d)]) →
            o < S (next_object d)) ∧
      (∀ o, is_Some (<[next_object d := mkObjectCell sf 1 pol]> (heap d) !! o)
            ↔ o < S (next_object d) ∧
              o ∉ deleted (trace d ++ [EvCreate sf (next_object d)])))
      as Hconstruct.
    { intros sf pol. rewrite seq_S, created_app, deleted_app, Hc.
      change (created [EvCreate sf (next_object d)]) with [next_object d].
      change (deleted [EvCreate sf (next_object d)]) with (@nil nat).
      rewrite app_nil_r. split_and!; [done..| |].
      - intros o Ho. apply Hlt in Ho. lia.
      - intros o. rewrite lookup_insert_is_Some, Hlive. split.
        + intros [<-|[Hne [H1 H2]]].
          * split; [lia|]. intros Hin%Hlt. lia.
          * split; [lia|done].
        + intros [H1 H2]. destruct (decide (next_object d = o)) as [|Hne];
            [by left|]. right. split_and!; [done|lia|done]. }
    assert (∀ o c c', heap d !! o = Some c →
      ∀ o', is_Some (<[o := c']> (heap d) !! o')
            ↔ o' < next_object d ∧ o' ∉ deleted (trace d)) as Hcount.
    { intros o c c' Ho o'. rewrite lookup_insert_is_Some, <- Hlive.
      split; [intros [<-|[_ H]]; eauto|].
      intros H. destruct (decide (o = o')); [by left|by right]. }
    assert (∀ o c evs, heap d !! o = Some c →
      created evs = [] → deleted evs = [o] →
      created (trace d ++ evs) = seq 0 (next_object d) ∧
      NoDup (deleted (trace d ++ evs)) ∧
      (∀ o', o' ∈ deleted (trace d ++ evs) → o' < next_object d) ∧
      (∀ o', is_Some (delete o (heap d) !! o')
             ↔ o' < next_object d ∧ o' ∉ deleted (trace d ++ evs)))
      as Hdestroy.
    { intros o c evs Ho Hce Hde. rewrite created_app, deleted_app, Hce, Hde.
      rewrite app_nil_r.
      assert (o < next_object d ∧ o ∉ deleted (trace d)) as [Ho1 Ho2]
        by (apply Hlive; eauto).
      split_and!; [done| | |].
      - apply NoDup_app. split_and!; [done| |apply NoDup_singleton].
        intros x Hx ->%list_elem_of_singleton. done.
      - intros o' [H| ->%list_elem_of_singleton]%elem_of_app; [by apply Hlt|done].
      - intros o'. rewrite lookup_delete_is_Some, Hlive, not_elem_of_app.
        rewrite list_elem_of_singleton. intuition congruence. }
    destruct Ht as [sf Hp|sf m Hm Hsf|o c m Hm Ho|o c n Ho Hcnt
                   |o c Ho Hcnt Hk|o c m Ho Hcnt Hk Hm| |opt res e He]; cbn.
    + apply Hconstruct.
    + apply Hconstruct.
    + split_and!; [done..|]. by apply (Hcount o c).
    + split_and!; [done..|]. by apply (Hcount o c).
    + by apply (Hdestroy o c).
    + by apply (Hdestroy o c).
    + done.
    + rewrite created_app, deleted_app, created_query, deleted_query by done.
      by rewrite !app_nil_r.
Qed.

(** X6: in every reachable detector, the objects constructed so far are
    those with the identities below [next_object], each constructed
    once; no object was deleted twice; only constructed objects were
    deleted; and the live objects are exactly the constructed ones that
    were not deleted. *)
Theorem objects_constructed_once_deleted_once d :
  reachable d →
  created (trace d) = seq 0 (next_object d) ∧
  NoDup (created (trace d)) ∧
  NoDup (deleted (trace d)) ∧
  (∀ o, o ∈ deleted (trace d) → o ∈ created (trace d)) ∧
  (∀ o, is_Some (heap d !! o) ↔
        o ∈ created (trace d) ∧ o ∉ deleted (trace d)).
Proof.
  intros Hd. destruct (log_accounting d Hd) as (Hc & Hn & Hlt & Hlive).
  rewrite Hc. split_and!; [done|apply NoDup_seq|done| |].
  - intros o Ho%Hlt. apply elem_of_seq. lia.
  - intros o. rewrite Hlive, elem_of_seq. split; intros [H1 H2]; (split; [lia|done]).
Qed.

End Accounting.

Lemma shared_after_release_reachable :
  reachable (Impl := PairwiseDetector.impl) shared_after_release.
Proof. apply state_after_reachable. vm_compute. by eexists. Defined.

(** After two constructions and one deletion on a sharing detector. *)
Lemma objects_constructed_once_deleted_once_witness :
  created (trace shared_after_release) = [0; 1] ∧
  deleted (trace shared_after_release) = [1] ∧
  (is_Some (heap shared_after_release !! 0) ↔
     0 ∈ created (trace shared_after_release) ∧
     0 ∉ deleted (trace shared_after_release)).
Proof.
  destruct (objects_constructed_once_deleted_once
              (Impl := PairwiseDetector.impl)
              shared_after_release shared_after_release_reachable)
    as (_ & _ & _ & _ & Hlive).
  split_and!; [reflexivity..|apply Hlive].
Defined.

Section Notifications.
Context `{Impl : CollisionDetectorImpl}.



End Notifications.


(** ** The scratch members across requests *)

Lemma claim_outcome_cases sf d p d' :
  wf d → claimCollisionObject sf d = Ok p d' →
  mDummyCollisionOption d' = mDummyCollisionOption d ∧
  mDummyCollisionResult d' = mDummyCollisionResult d ∧
  (trace d' = trace d ∨ trace d' = trace d ++ [EvCreate sf (next_object d)]).
Proof.
  intros Hwf. destruct (policy d) eqn:Hp.
  - rewrite exclusive_claim_outcome by done. intros [= _ <-]. cbn. eauto.
  - destruct (policy_shared d Hp) as [m Hm].
    rewrite (claim_with_manager sf d _ Hm). cbn.
    destruct (m !! sf) as [o|] eqn:Hsf.
    + destruct (wf_map_live d Hwf m sf o Hm Hsf) as (c & Hc & _).
      pose proof (wf_owned d Hwf o c Hc) as Hpos.
      rewrite (sharable_claim_hit sf d m o c Hm Hsf Hc Hpos).
      intros [= _ <-]. cbn. eauto.
    + rewrite (sharable_claim_miss sf d m Hm Hsf). intros [= _ <-].
      cbn. eauto.
Qed.

Lemma release_outcome_cases o d d' :
  wf d → release (Some o) d = Ok tt d' →
  mDummyCollisionOption d' = mDummyCollisionOption d ∧
  mDummyCollisionResult d' = mDummyCollisionResult d ∧
  (trace d' = trace d ∨
   trace d' = trace d ++ [EvNotify o; EvDelete o] ∨
   ∃ sf, trace d' = trace d ++ [EvNotify o; EvErase sf; EvDelete o]).
Proof.
  intros Hwf Hr. destruct (heap d !! o) as [c|] eqn:Ho.
  - pose proof (wf_owned d Hwf o c Ho) as Hpos.
    pose proof (wf_deleter d Hwf o c Ho) as Hdel.
    destruct (use_count c) as [|[|n]] eqn:Hc; [lia| |].
    + destruct (deleter c) eqn:Hk.
      * rewrite (release_last_exclusive o c d Ho Hc Hk) in Hr.
        injection Hr as <-. cbn. eauto.
      * destruct (mCollisionObjectManager d) as [[|m]|] eqn:Hm;
          cbn in Hdel; [congruence| |discriminate].
        rewrite (release_last_shared o c m d Ho Hc Hk Hm) in Hr.
        injection Hr as <-. cbn. eauto 6.
    + rewrite (release_not_last o c n d Ho Hc) in Hr.
      injection Hr as <-. cbn. eauto.
  - rewrite (release_absent o d Ho) in Hr. injection Hr as <-. eauto.
Qed.

Section Scratch.
Context `{Impl : CollisionDetectorImpl}.

(** X8: the scratch result is never cleared by the detector: on every
    reachable detector, of two convenience queries in a row the second
    hands to the core overload, as its result, what the first one left
    there, and the log shows the two core calls in this order. *)
Theorem scratch_result_carries_over d g1 o1 g2 o2 :
  reachable d →
  let r1 := (collide_impl g1 (option_used o1) (scratch_result d)).2 in
  ∃ b1 d1 b2 d2,
    collide g1 o1 d = Ok b1 d1 ∧
    mDummyCollisionResult d1 = Some r1 ∧
    collide g2 o2 d1 = Ok b2 d2 ∧
    b2 = (collide_impl g2 (option_used o2) r1).1 ∧
    mDummyCollisionResult d2 = Some (collide_impl g2 (option_used o2) r1).2 ∧
    trace d2 = trace d ++ [EvCollide g1 (option_used o1) (scratch_result d);
                           EvCollide g2 (option_used o2) r1].
Proof.
  intros Hd r1. pose proof (wf_reachable d Hd) as Hwf.
  pose proof (collide_outcome g1 o1 d Hwf) as H1.
  assert (step d (mkCollisionDetector (mCollisionObjectManager d)
                    (scratch_option_after o1 d) (Some r1)
                    (heap d) (next_object d)
                    (trace d ++ [EvCollide g1 (option_used o1)
                                   (scratch_result d)]))) as Hstep.
  { exists (Collide g1 o1). cbn. unfold mbind, M_bind. by rewrite H1. }
  pose proof (wf_step _ _ Hwf Hstep) as Hwf1.
  pose proof (collide_outcome g2 o2 _ Hwf1) as H2.
  eexists _, _, _, _. split; [exact H1|]. split; [done|].
  split; [exact H2|]. cbn. split_and!; [done..|].
  by rewrite <- app_assoc.
Qed.

(** X9: the two lazy getters construct their scratch object at most
    once: a second call gives the same object and changes nothing, and
    a scratch object that is already there is handed out as it is. *)
Theorem dummy_getters_idempotent d :
  (∃ o d1, getDummyCollisionOption d = Ok o d1 ∧
           getDummyCollisionOption d1 = Ok o d1 ∧
           mDummyCollisionOption d1 = Some o ∧
           (∀ o0, mDummyCollisionOption d = Some o0 → o = o0 ∧ d1 = d)) ∧
  (∃ r d1, getDummyCollisionResult d = Ok r d1 ∧
           getDummyCollisionResult d1 = Ok r d1 ∧
           mDummyCollisionResult d1 = Some r ∧
           (∀ r0, mDummyCollisionResult d = Some r0 → r = r0 ∧ d1 = d)).
Proof.
  split.
  - exists (scratch_option d), (set_option (Some (scratch_option d)) d).
    rewrite !getDummyCollisionOption_outcome. split_and!; [done..|].
    intros o0 H0. unfold scratch_option. rewrite H0. cbn. split; [done|].
    destruct d; cbn in *. by subst.
  - exists (scratch_result d), (set_result (Some (scratch_result d)) d).
    rewrite !getDummyCollisionResult_outcome. split_and!; [done..|].
    intros r0 H0. unfold scratch_result. rewrite H0. cbn. split; [done|].
    destruct d; cbn in *. by subst.
Qed.

(** X10: on every reachable detector, a convenience query leaves the
    manager, the store of objects and the allocation counter as they
    are; a claim or a release leaves the scratch option and the scratch
    result as they are and makes no core query. *)
Theorem queries_and_objects_do_not_interfere d r d' :
  reachable d →
  handle r d = Ok tt d' →
  match r with
  | Collide _ _ | Collide2 _ _ _ =>
      mCollisionObjectManager d' = mCollisionObjectManager d ∧
      heap d' = heap d ∧
      next_object d' = next_object d ∧
      created (trace d') = created (trace d) ∧
      deleted (trace d') = deleted (trace d)
  | Claim _ | Release _ =>
      mDummyCollisionOption d' = mDummyCollisionOption d ∧
      mDummyCollisionResult d' = mDummyCollisionResult d ∧
      List.filter is_query (trace d') = List.filter is_query (trace d)
  end.
Proof.
  intros Hd. pose proof (wf_reachable d Hd) as Hwf.
  destruct r as [sf|o|g opt|g1 g2 opt]; unfold handle.
  - unfold mbind, M_bind.
    destruct (claimCollisionObject sf d) as [p d1|] eqn:E; [|done].
    cbn. intros [= <-].
    destruct (claim_outcome_cases sf d p d1 Hwf E) as (Ho & Hr & [Ht|Ht]);
      rewrite Ht; split_and!; try done.
    rewrite List.filter_app. cbn. by rewrite app_nil_r.
  - intros E.
    destruct (release_outcome_cases o d d' Hwf E)
      as (Ho & Hr & [Ht|[Ht|[sf Ht]]]);
      rewrite Ht; split_and!; try done.
    + rewrite List.filter_app. cbn. by rewrite app_nil_r.
    + rewrite List.filter_app. cbn. by rewrite app_nil_r.
  - unfold mbind, M_bind. rewrite collide_outcome by done. cbn.
    intros [= <-]. cbn. rewrite created_app, deleted_app. cbn.
    by rewrite !app_nil_r.
  - unfold mbind, M_bind. rewrite collide2_outcome by done. cbn.
    intros [= <-]. cbn. rewrite created_app, deleted_app. cbn.
    by rewrite !app_nil_r.
Qed.

End Scratch.

(** Two queries in a row on a detector that holds three objects. *)
Lemma scratch_result_carries_over_witness :
  ∃ b1 d1 b2 d2,
    collide (Impl := PairwiseDetector.impl)
      [0; 1; 2] full_option after_filtered_query = Ok b1 d1 ∧
    mDummyCollisionResult d1 = Some [(0, 2); (0, 1)] ∧
    collide (Impl := PairwiseDetector.impl)
      [1; 2] (mkCollisionOption false true 1 None) d1 = Ok b2 d2 ∧
    b2 = true ∧
    mDummyCollisionResult d2 = Some [(0, 2); (0, 1); (1, 2)] ∧
    trace d2 =
      trace after_filtered_query ++
        [EvCollide [0; 1; 2] (mkCollisionOption false true 1 None) [(0, 2)];
         EvCollide [1; 2] (mkCollisionOption false true 1 None)
           [(0, 2); (0, 1)]].
Proof.
  exact (scratch_result_carries_over (Impl := PairwiseDetector.impl)
           after_filtered_query [0; 1; 2] full_option
           [1; 2] (mkCollisionOption false true 1 None)
           after_filtered_query_reachable).
Defined.

(** A query on a detector that holds three objects. *)
Lemma queries_and_objects_do_not_interfere_witness :
  ∃ d', handle (Impl := PairwiseDetector.impl)
          (Collide [0; 1; 2] full_option) after_filtered_query = Ok tt d' ∧
        mCollisionObjectManager d'
          = mCollisionObjectManager after_filtered_query ∧
        heap d' = heap after_filtered_query ∧
        next_object d' = 3.
Proof.
  destruct (handle (Impl := PairwiseDetector.impl)
              (Collide [0; 1; 2] full_option) after_filtered_query)
    as [[] d'|] eqn:E; [|by vm_compute in E].
  exists d'. split; [done|].
  destruct (queries_and_objects_do_not_interfere
              (Impl := PairwiseDetector.impl)
              after_filtered_query (Collide [0; 1; 2] full_option) d'
              after_filtered_query_reachable E) as (Hm & Hh & Hn & _).
  split_and!; [done..|]. by rewrite Hn.
Defined.

Section Lifetime.
Context `{Impl : CollisionDetectorImpl}.

(** X11: whatever requests follow on a reachable detector, its sharing
    discipline stays the same (a manager is installed only where there
    is none), allocation identities only grow, a collision object that
    is still alive has kept its shape frame and its deleter, and an
    object that was destroyed is never alive again. *)
Theorem objects_keep_identity d d' :
  reachable d →
  rtc step d d' →
  policy d' = policy d ∧
  next_object d ≤ next_object d' ∧
  (∀ o c c', heap d !! o = Some c → heap d' !! o = Some c' →
             getShapeFrame c' = getShapeFrame c ∧ deleter c' = deleter c) ∧
  (∀ o, o < next_object d → heap d !! o = None → heap d' !! o = None).
Proof.
  intros Hd Hs. pose proof (wf_reachable d Hd) as Hwf.
  pose proof (wf_steps d d' Hwf Hs) as Hwf'.
  destruct (steps_evolves d d' Hwf Hs) as (Hn & Hp & Hback).
  assert (∀ d0 o c, wf d0 → heap d0 !! o = Some c → deleter c = policy d0)
    as Hdel.
  { intros d0 o c Hwf0 Ho. pose proof (wf_deleter d0 Hwf0 o c Ho) as H.
    unfold policy. destruct (mCollisionObjectManager d0); [|done].
    cbn in H. congruence. }
  split_and!; [done..| |].
  - intros o c c' Ho Ho'.
    destruct (Hback o c' (wf_fresh d Hwf o c Ho) Ho') as (c0 & Hc0 & Hf).
    split; [congruence|].
    rewrite (Hdel d' o c' Hwf' Ho'), (Hdel d o c Hwf Ho). done.
  - intros o Hlt Ho. destruct (heap d' !! o) as [c'|] eqn:Ho'; [|done].
    destruct (Hback o c' Hlt Ho') as (c0 & Hc0 & _). congruence.
Qed.


End Lifetime.

(** From the sharing detector that holds object 0 to the one reached by
    four more requests. *)
Lemma objects_keep_identity_witness :
  policy shared_after_release = policy shared_after_claim ∧
  next_object shared_after_claim ≤ next_object shared_after_release ∧
  (∀ o c c', heap shared_after_claim !! o = Some c →
             heap shared_after_release !! o = Some c' →
             getShapeFrame c' = getShapeFrame c ∧ deleter c' = deleter c) ∧
  (∀ o, o < next_object shared_after_claim →
        heap shared_after_claim !! o = None →
        heap shared_after_release !! o = None).
Proof.
  apply (objects_keep_identity (Impl := PairwiseDetector.impl)
           shared_after_claim shared_after_release
           shared_after_claim_reachable).
  apply (run_steps (Impl := PairwiseDetector.impl)
           [Claim 8; Claim 7; Release 1; Release 0]).
  vm_compute. reflexivity.
Defined.

